(** * SimpleThreadPool: an interleaving model and its properties

    Source: [src/concurrency/thread/simple-thread-pool/simple_thread_pool.cpp].

    The program is a fixed-size pool of worker threads that consume strings
    from a shared [std::queue] under [queue_mutex_], print each of them under
    the global [cout_mutex], and are shut down by the destructor.

    The embedding is a small-step transition system.  The members of the
    class and the output stream are the fields of a record; every thread has
    a control point, one for each statement of the source, and a transition
    executes one statement of one thread.  A mutex is free or held by a
    thread, and a thread that locks a held mutex cannot move.  [cv_.wait]
    with a predicate is the loop the language defines it to be: the predicate
    is evaluated with the mutex held; if it is false the thread releases the
    mutex and blocks in one transition, and a notification, or a spurious
    wake-up, makes it take the mutex and evaluate the predicate again.  The
    output statement writes its line one character at a time.  A schedule (a
    list of labels) says which thread moves next, so what is proved of all
    schedules holds of every interleaving of the threads.

    The client is that of [main] with its two constants as parameters: one
    thread constructs a pool of [num_workers] workers, calls [Enqueue] on the
    strings of [msgs] in turn and destroys the pool.  The banner [main]
    prints at line 80 precedes the construction of the pool and is left
    out.  Time is not modelled: [sleep_for] at line 66 is a transition that
    changes nothing but the control point. *)

From Stdlib Require Import Ascii String.
From stdpp Require Import base tactics option list strings pretty.

(** ** Threads and their control points *)

(** The thread that owns the pool object (it runs the constructor, the calls
    of [Enqueue] and the destructor), and the threads of [workers_], named by
    their index in that vector. *)
Inductive thread :=
| Owner
| Worker (i : nat).

Global Instance thread_eq_dec : EqDecision thread.
Proof. solve_decision. Defined.

(** Control points of [SimpleThreadPool::Worker] (lines 47-68).  [task] is the
    local variable of line 49. *)
Inductive wpc :=
| WLock                              (* line 52: acquiring queue_mutex_ *)
| WPred                              (* line 54: the predicate of cv_.wait, lock held *)
| WWait                              (* line 54: blocked on cv_, lock released *)
| WWoken                             (* line 54: unblocked, re-acquiring queue_mutex_ *)
| WExitTest                          (* line 56 *)
| WFront                             (* line 58 *)
| WPop (task : string)               (* line 59 *)
| WUnlock (task : string)            (* line 60: end of the scope of the lock *)
| WCoutLock (task : string)          (* line 63: acquiring cout_mutex *)
| WWrite (task : string) (k : nat)   (* line 64: k characters of the line written *)
| WSleep                             (* line 66 *)
| WDone.                             (* returned at line 56 *)

Global Instance wpc_eq_dec : EqDecision wpc.
Proof. solve_decision. Defined.

(** Control points of the owner: the constructor (lines 20-27), a call
    [Enqueue(t)] (lines 38-44) with the calls still to come, and the
    destructor (lines 29-36). *)
Inductive mpc :=
| MCtor (i : nat)                              (* line 24: i threads started *)
| MEnqLock (t : string) (todo : list string)   (* line 40 *)
| MEnqPush (t : string) (todo : list string)   (* line 41 *)
| MEnqUnlock (t : string) (todo : list string) (* line 42 *)
| MEnqNotify (t : string) (todo : list string) (* line 43 *)
| MDtorLock                                    (* line 31 *)
| MDtorStop                                    (* line 32 *)
| MDtorUnlock                                  (* line 33 *)
| MDtorNotify                                  (* line 34 *)
| MJoin (i : nat)                              (* line 35: joining workers_[i] *)
| MDone.                                       (* the destructor has returned *)

Global Instance mpc_eq_dec : EqDecision mpc.
Proof. solve_decision. Defined.

(** ** The shared state *)

(** The members of the class (lines 70-74), the global [cout_mutex] (line 16)
    and the characters written to [std::cout], each with the worker that
    wrote it.  The threads blocked on [cv_] are the workers at [WWait]. *)
Record World := mkWorld {
  workers_ : list wpc;
  tasks_ : list string;
  queue_mutex_ : option thread;
  stop_ : bool;
  cout_mutex : option nat;
  cout : list (nat * ascii);
  owner : mpc
}.

Definition set_workers (f : list wpc → list wpc) (s : World) : World :=
  mkWorld (f (workers_ s)) (tasks_ s) (queue_mutex_ s) (stop_ s)
          (cout_mutex s) (cout s) (owner s).
Definition set_pc (i : nat) (pc : wpc) : World → World :=
  set_workers (λ ws, <[i:=pc]> ws).
Definition set_tasks (q : list string) (s : World) : World :=
  mkWorld (workers_ s) q (queue_mutex_ s) (stop_ s)
          (cout_mutex s) (cout s) (owner s).
Definition set_mutex (m : option thread) (s : World) : World :=
  mkWorld (workers_ s) (tasks_ s) m (stop_ s)
          (cout_mutex s) (cout s) (owner s).
Definition set_stop (b : bool) (s : World) : World :=
  mkWorld (workers_ s) (tasks_ s) (queue_mutex_ s) b
          (cout_mutex s) (cout s) (owner s).
Definition set_cout_mutex (m : option nat) (s : World) : World :=
  mkWorld (workers_ s) (tasks_ s) (queue_mutex_ s) (stop_ s)
          m (cout s) (owner s).
Definition put_char (i : nat) (c : ascii) (s : World) : World :=
  mkWorld (workers_ s) (tasks_ s) (queue_mutex_ s) (stop_ s)
          (cout_mutex s) (cout s ++ [(i, c)]) (owner s).
Definition set_owner (pc : mpc) (s : World) : World :=
  mkWorld (workers_ s) (tasks_ s) (queue_mutex_ s) (stop_ s)
          (cout_mutex s) (cout s) pc.

(** ** The client and the platform *)

(** [main] (lines 77-90) builds a pool of 2 workers and enqueues 5 messages;
    the model keeps both as parameters.  [show_id] is the text that
    [operator<<] prints for the [std::thread::id] of a worker, which the
    language leaves to the implementation. *)
Class Config := {
  num_workers : nat;
  msgs : list string;
  show_id : nat → string
}.

Definition newline : ascii := ascii_of_nat 10.

Definition empty (q : list string) : bool :=
  match q with [] => true | _ :: _ => false end.

Definition is_wait (pc : wpc) : bool :=
  match pc with WWait => true | _ => false end.

Definition wake (pc : wpc) : wpc :=
  match pc with WWait => WWoken | _ => pc end.

(** What the owner does after the constructor or a call of [Enqueue] has
    returned: the next call of [Enqueue], or the destructor at the end of the
    scope (line 87). *)
Definition next_call (todo : list string) : mpc :=
  match todo with
  | [] => MDtorLock
  | t :: todo' => MEnqLock t todo'
  end.

Section Model.
Context `{cfg : Config}.

(** Line 64: ["Thread " << get_id() << ": " << task << std::endl]. *)
Definition line (i : nat) (task : string) : list ascii :=
  list_ascii_of_string "Thread " ++ list_ascii_of_string (show_id i)
    ++ list_ascii_of_string ": " ++ list_ascii_of_string task ++ [newline].

(** One statement of [Worker] executed by [workers_[i]].  [None]: the
    thread cannot move (it is blocked on a mutex or on [cv_], it has
    returned, or it would call [front]/[pop] on an empty queue).

    [tasks_] lists the tasks that are queued.  Line 58 moves the string
    out of the front element of the container; the element stays where it
    is, its content unspecified, until line 59 removes it, with
    [queue_mutex_] held throughout.  The list keeps the task at its front
    until line 59: what is stated of the front element between the two
    lines is stated of the task, not of the content of the element. *)
Definition worker_step (i : nat) (s : World) : option World :=
  match workers_ s !! i with
  | None => None
  | Some pc =>
    match pc with
    | WLock | WWoken =>
      match queue_mutex_ s with
      | None => Some (set_pc i WPred (set_mutex (Some (Worker i)) s))
      | Some _ => None
      end
    | WPred =>
      if stop_ s || negb (empty (tasks_ s))
      then Some (set_pc i WExitTest s)
      else Some (set_pc i WWait (set_mutex None s))
    | WWait => None
    | WExitTest =>
      if stop_ s && empty (tasks_ s)
      then Some (set_pc i WDone (set_mutex None s))
      else Some (set_pc i WFront s)
    | WFront =>
      match tasks_ s with
      | t :: _ => Some (set_pc i (WPop t) s)
      | [] => None
      end
    | WPop t =>
      match tasks_ s with
      | _ :: q => Some (set_pc i (WUnlock t) (set_tasks q s))
      | [] => None
      end
    | WUnlock t => Some (set_pc i (WCoutLock t) (set_mutex None s))
    | WCoutLock t =>
      match cout_mutex s with
      | None => Some (set_pc i (WWrite t 0) (set_cout_mutex (Some i) s))
      | Some _ => None
      end
    | WWrite t k =>
      match line i t !! k with
      | Some c => Some (set_pc i (WWrite t (S k)) (put_char i c s))
      | None => Some (set_pc i WSleep (set_cout_mutex None s))
      end
    | WSleep => Some (set_pc i WLock s)
    | WDone => None
    end
  end.

(** [cv_.notify_one()]: if some thread is blocked on [cv_], one of them is
    unblocked; [k] is the one the platform picks. *)
Definition notify_one (k : nat) (s : World) : option World :=
  if existsb is_wait (workers_ s)
  then match workers_ s !! k with
       | Some WWait => Some (set_pc k WWoken s)
       | _ => None
       end
  else Some s.

(** [cv_.notify_all()]: every thread blocked on [cv_] is unblocked. *)
Definition notify_all (s : World) : World := set_workers (fmap wake) s.

(** One statement of the owner. *)
Definition owner_step (k : nat) (s : World) : option World :=
  match owner s with
  | MCtor i =>
    if i <? num_workers
    then Some (set_owner (MCtor (S i)) (set_workers (λ ws, ws ++ [WLock]) s))
    else Some (set_owner (next_call msgs) s)
  | MEnqLock t todo =>
    match queue_mutex_ s with
    | None => Some (set_owner (MEnqPush t todo) (set_mutex (Some Owner) s))
    | Some _ => None
    end
  | MEnqPush t todo =>
    Some (set_owner (MEnqUnlock t todo) (set_tasks (tasks_ s ++ [t]) s))
  | MEnqUnlock t todo => Some (set_owner (MEnqNotify t todo) (set_mutex None s))
  | MEnqNotify t todo => set_owner (next_call todo) <$> notify_one k s
  | MDtorLock =>
    match queue_mutex_ s with
    | None => Some (set_owner MDtorStop (set_mutex (Some Owner) s))
    | Some _ => None
    end
  | MDtorStop => Some (set_owner MDtorUnlock (set_stop true s))
  | MDtorUnlock => Some (set_owner MDtorNotify (set_mutex None s))
  | MDtorNotify => Some (set_owner (MJoin 0) (notify_all s))
  | MJoin i =>
    match workers_ s !! i with
    | Some WDone => Some (set_owner (MJoin (S i)) s)
    | Some _ => None
    | None => Some (set_owner MDone s)
    end
  | MDone => None
  end.

(** A wake-up of [cv_.wait] that no notification caused; the language
    allows it, and the loop around the predicate is there for it. *)
Definition spurious (i : nat) (s : World) : option World :=
  match workers_ s !! i with
  | Some WWait => Some (set_pc i WWoken s)
  | _ => None
  end.

Inductive label :=
| LOwner (k : nat)
| LWorker (i : nat)
| LSpurious (i : nat).

Definition step (l : label) (s : World) : option World :=
  match l with
  | LOwner k => owner_step k s
  | LWorker i => worker_step i s
  | LSpurious i => spurious i s
  end.

(** The state before the constructor body runs: the member initialisers
    (line 20) have run, no thread exists. *)
Definition init : World :=
  mkWorld [] [] None false None [] (MCtor 0).

(** ** Runs and what is observed along them *)

(** The history of a run: the strings pushed at line 41, the strings
    removed at line 59 with the worker that removed them, and the strings
    whose output statement (line 64) a worker has completed.  The history
    is an observer: no transition reads it. *)
Record History := mkHistory {
  pushed : list string;
  popped : list (nat * string);
  executed : list (nat * string)
}.

Definition no_history : History := mkHistory [] [] [].

Definition pushed_by (l : label) (s : World) : list string :=
  match l, owner s with
  | LOwner _, MEnqPush t _ => [t]
  | _, _ => []
  end.

Definition popped_by (l : label) (s : World) : list (nat * string) :=
  match l with
  | LWorker i =>
    match workers_ s !! i, tasks_ s with
    | Some (WPop _), x :: _ => [(i, x)]
    | _, _ => []
    end
  | _ => []
  end.

Definition executed_by (l : label) (s : World) : list (nat * string) :=
  match l with
  | LWorker i =>
    match workers_ s !! i with
    | Some (WWrite t k) =>
      match line i t !! k with
      | None => [(i, t)]
      | Some _ => []
      end
    | _ => []
    end
  | _ => []
  end.

Definition observe (l : label) (s : World) (h : History) : History :=
  mkHistory (pushed h ++ pushed_by l s) (popped h ++ popped_by l s)
            (executed h ++ executed_by l s).

Fixpoint run (sched : list label) (s : World) (h : History)
    : option (World * History) :=
  match sched with
  | [] => Some (s, h)
  | l :: sched' =>
    match step l s with
    | Some s' => run sched' s' (observe l s h)
    | None => None
    end
  end.

(** The characters of the lines of a list of executions, each character
    with its writer. *)
Definition wline (e : nat * string) : list (nat * ascii) :=
  (λ c, (e.1, c)) <$> line e.1 e.2.

Definition render (es : list (nat * string)) : list (nat * ascii) :=
  es ≫= wline.

(** The text on the stream. *)
Definition text (out : list (nat * ascii)) : list ascii := snd <$> out.

(** The characters of an unfinished line: those written by the worker that
    holds [cout_mutex]. *)
Definition pending (s : World) : list (nat * ascii) :=
  match cout_mutex s with
  | Some i =>
    match workers_ s !! i with
    | Some (WWrite t k) => take k (wline (i, t))
    | _ => []
    end
  | None => []
  end.

(** The task a worker has removed from the queue and not yet finished
    printing. *)
Definition in_flight (pc : wpc) : list string :=
  match pc with
  | WUnlock t | WCoutLock t | WWrite t _ => [t]
  | _ => []
  end.

(** The calls of [Enqueue] the owner has not completed the push of. *)
Definition to_push (pc : mpc) : list string :=
  match pc with
  | MCtor _ => msgs
  | MEnqLock t todo | MEnqPush t todo => t :: todo
  | MEnqUnlock _ todo | MEnqNotify _ todo => todo
  | _ => []
  end.

(** ** A variant for termination *)

Definition spurious_count (sched : list label) : nat :=
  sum_list_with (λ l, match l with LSpurious _ => 1 | _ => 0 end) sched.

(** An upper bound of the length of the line of [t], whichever worker
    prints it. *)
Definition line_bound (t : string) : nat :=
  max_list ((λ i, length (line i t)) <$> seq 0 num_workers).

Definition task_cost (t : string) : nat := 10 + line_bound t.

Definition worker_cost (pc : wpc) : nat :=
  match pc with
  | WDone | WWait => 0
  | WPop _ => 1
  | WFront => 2
  | WExitTest => 3
  | WPred => 4
  | WLock | WWoken => 5
  | WSleep => 6
  | WWrite t k => 7 + (line_bound t - k)
  | WCoutLock t => 8 + line_bound t
  | WUnlock t => 9 + line_bound t
  end.

Definition calls_cost (todo : list string) : nat :=
  sum_list_with (λ t, 9 + task_cost t) todo.

Definition owner_cost (nw : nat) (pc : mpc) : nat :=
  match pc with
  | MCtor i => 6 + 12 * (num_workers - i) + 6 * nw + calls_cost msgs
  | MEnqLock t todo => 14 + task_cost t + 6 * nw + calls_cost todo
  | MEnqPush t todo => 13 + task_cost t + 6 * nw + calls_cost todo
  | MEnqUnlock t todo => 12 + 6 * nw + calls_cost todo
  | MEnqNotify t todo => 11 + 6 * nw + calls_cost todo
  | MDtorLock => 5 + 6 * nw
  | MDtorStop => 4 + 6 * nw
  | MDtorUnlock => 3 + 6 * nw
  | MDtorNotify => 2 + 6 * nw
  | MJoin i => 1 + (nw - i)
  | MDone => 0
  end.

Definition cost (s : World) : nat :=
  owner_cost (length (workers_ s)) (owner s)
    + sum_list_with worker_cost (workers_ s)
    + sum_list_with task_cost (tasks_ s).

(** ** A scheduler *)

(** The first label of [cands] that can move, with its position. *)
Definition pick (cands : list label) (s : World) : option (nat * label) :=
  list_find (λ l, is_Some (step l s)) cands.

(** The schedule that moves, at each state, the first thread of [cands]
    that can move, for at most [fuel] steps.  With [fair] the turn then
    passes to the threads after it; without, the first thread of [cands]
    runs for as long as it can. *)
Fixpoint greedy (fair : bool) (fuel : nat) (cands : list label) (s : World)
    : list label :=
  match fuel with
  | 0 => []
  | S fuel' =>
    match pick cands s with
    | Some (j, l) =>
      match step l s with
      | Some s' =>
        l :: greedy fair fuel' (if fair then rotate (S j) cands else cands) s'
      | None => []
      end
    | None => []
    end
  end.

(** The shortest prefix of [sched] after which [P] holds, all of [sched]
    if there is none. *)
Fixpoint until (P : World → bool) (sched : list label) (s : World)
    : list label :=
  if P s then [] else
  match sched with
  | [] => []
  | l :: sched' =>
    match step l s with
    | Some s' => l :: until P sched' s'
    | None => []
    end
  end.

(** The state and the history a run ends with, [init] if it is stuck. *)
Definition result (sched : list label) (s : World) (h : History)
    : World * History :=
  default (init, no_history) (run sched s h).

(** The statements of [Enqueue] (lines 40-43) run by the owner with no
    other thread moving in between; [k] is the waiter that [notify_one]
    unblocks, if there is one. *)
Definition Enqueue (k : nat) : list label :=
  [LOwner 0; LOwner 0; LOwner 0; LOwner k].

(** The prefix of line 64 that names the worker. *)
Definition worker_identifier (i : nat) : string :=
  "Thread " +:+ show_id i.

(** A transition other than a spurious wake-up that can be taken. *)
Definition penalty (l : label) : nat :=
  match l with LSpurious _ => 6 | _ => 0 end.

Definition enabled (l : label) (s : World) : Prop :=
  penalty l = 0 ∧ is_Some (step l s).

(** ** The invariant of the reachable states *)

(** The control points between the acquisition and the release of
    [queue_mutex_]. *)
Definition holds_lock (pc : wpc) : bool :=
  match pc with
  | WPred | WExitTest | WFront | WPop _ | WUnlock _ => true
  | _ => false
  end.

Definition owner_holds (pc : mpc) : bool :=
  match pc with
  | MEnqPush _ _ | MEnqUnlock _ _ | MDtorStop | MDtorUnlock => true
  | _ => false
  end.

(** What a worker knows of the queue at a control point. *)
Definition local_ok (s : World) (pc : wpc) : Prop :=
  match pc with
  | WExitTest => stop_ s = true ∨ tasks_ s ≠ []
  | WFront => tasks_ s ≠ []
  | WPop t => ∃ q, tasks_ s = t :: q
  | WDone => stop_ s = true ∧ tasks_ s = []
  | _ => True
  end.

(** The control points of the owner after line 32. *)
Definition stopping (pc : mpc) : bool :=
  match pc with
  | MDtorUnlock | MDtorNotify | MJoin _ | MDone => true
  | _ => false
  end.

(** The control points of the owner after line 34. *)
Definition joining (pc : mpc) : bool :=
  match pc with
  | MJoin _ | MDone => true
  | _ => false
  end.

(** The number of threads the constructor has started. *)
Definition spawned (pc : mpc) : nat :=
  match pc with
  | MCtor i => i
  | _ => num_workers
  end.

(** The workers whose [join] has returned. *)
Definition joined (pc : mpc) (j : nat) : Prop :=
  match pc with
  | MJoin i => j < i
  | MDone => True
  | _ => False
  end.

Record Inv (s : World) : Prop := mkInv {
  inv_lock_w : ∀ i pc, workers_ s !! i = Some pc →
    holds_lock pc = true → queue_mutex_ s = Some (Worker i);
  inv_lock_w' : ∀ i, queue_mutex_ s = Some (Worker i) →
    ∃ pc, workers_ s !! i = Some pc ∧ holds_lock pc = true;
  inv_lock_o : queue_mutex_ s = Some Owner ↔ owner_holds (owner s) = true;
  inv_cout : ∀ i t k, workers_ s !! i = Some (WWrite t k) →
    cout_mutex s = Some i;
  inv_cout' : ∀ i, cout_mutex s = Some i →
    ∃ t k, workers_ s !! i = Some (WWrite t k);
  inv_local : ∀ i pc, workers_ s !! i = Some pc → local_ok s pc;
  inv_stop : stop_ s = stopping (owner s);
  inv_nowait : joining (owner s) = true →
    ∀ i, workers_ s !! i ≠ Some WWait;
  inv_len : length (workers_ s) = spawned (owner s);
  inv_len_le : spawned (owner s) ≤ num_workers;
  inv_joined : ∀ j pc, joined (owner s) j →
    workers_ s !! j = Some pc → pc = WDone
}.

(** What the history of a run says of the state the run ends in. *)
Record HInv (h : History) (s : World) : Prop := mkHInv {
  hinv_msgs : msgs = pushed h ++ to_push (owner s);
  hinv_fifo : (popped h).*2 ++ tasks_ s = pushed h;
  hinv_conserve :
    (popped h).*2 ≡ₚ (executed h).*2 ++ (workers_ s ≫= in_flight);
  hinv_order : length (workers_ s) ≤ 1 →
    (popped h).*2 = (executed h).*2 ++ (workers_ s ≫= in_flight);
  hinv_cout : cout s = render (executed h) ++ pending s;
  hinv_ids : Forall (λ e, e.1 < num_workers) (executed h)
}.

End Model.

(** ** The client of [main], and smaller ones *)

Definition decimal_id (i : nat) : string :=
  String (ascii_of_nat (48 + i)) EmptyString.

Definition five_messages : list string :=
  ["Message 1"; "Message 2"; "Message 3"; "Message 4"; "Message 5"]%string.

(** Lines 81-86: two workers, ["Message 1"] to ["Message 5"]. *)
Definition main_cfg : Config :=
  {| num_workers := 2; msgs := five_messages; show_id := decimal_id |}.

Definition main_cands : list label :=
  [LWorker 0; LWorker 1; LOwner 0; LOwner 1].

(** The threads of [main] taking turns. *)
Definition main_sched : list label :=
  Eval vm_compute in @greedy main_cfg true 400 main_cands init.

Definition main_final : World * History :=
  Eval vm_compute in @result main_cfg main_sched init no_history.

(** The owner of [main] running ahead of the workers: up to the statement
    that sets [stop_], and from there on. *)
Definition rush_sched : list label :=
  Eval vm_compute in
    @greedy main_cfg false 400 [LOwner 0; LOwner 1; LWorker 1; LWorker 0] init.

Definition rush_sched1 : list label :=
  Eval vm_compute in
    @until main_cfg (λ s, bool_decide (owner s = MDtorUnlock)) rush_sched init.

Definition rush_sched2 : list label :=
  Eval vm_compute in drop (length rush_sched1) rush_sched.

Definition rush_stop : World * History :=
  Eval vm_compute in @result main_cfg rush_sched1 init no_history.

Definition rush_final : World * History :=
  Eval vm_compute in @result main_cfg rush_sched2 rush_stop.1 rush_stop.2.

(** [main] interrupted while a worker is in the middle of a line. *)
Definition mid_sched : list label :=
  Eval vm_compute in
    @until main_cfg (λ s, bool_decide (length (cout s) = 30)) main_sched init.

Definition mid_state : World * History :=
  Eval vm_compute in @result main_cfg mid_sched init no_history.

(** [main] after the constructor, at its first call of [Enqueue], with
    both workers blocked on [cv_]; and after that call, with a worker at the
    predicate of [cv_.wait] and a message in the queue. *)
Definition enq_sched : list label :=
  [LOwner 0; LOwner 0; LOwner 0; LWorker 0; LWorker 0; LWorker 1; LWorker 1].

Definition enq_state : World * History :=
  Eval vm_compute in @result main_cfg enq_sched init no_history.

Definition pred_sched : list label :=
  enq_sched ++ @Enqueue 0 ++ [LWorker 0].

Definition pred_state : World * History :=
  Eval vm_compute in @result main_cfg pred_sched init no_history.

(** One worker (the single-worker scenario), no message (the zero-task
    scenario), no worker. *)
Definition solo_cfg : Config :=
  {| num_workers := 1; msgs := five_messages; show_id := decimal_id |}.

Definition solo_sched : list label :=
  Eval vm_compute in @greedy solo_cfg true 400 [LWorker 0; LOwner 0] init.

Definition solo_final : World * History :=
  Eval vm_compute in @result solo_cfg solo_sched init no_history.

Definition idle_cfg : Config :=
  {| num_workers := 3; msgs := []; show_id := decimal_id |}.

Definition idle_sched : list label :=
  Eval vm_compute in
    @greedy idle_cfg true 400 [LWorker 0; LWorker 1; LWorker 2; LOwner 0] init.

Definition idle_final : World * History :=
  Eval vm_compute in @result idle_cfg idle_sched init no_history.

Definition unmanned_cfg : Config :=
  {| num_workers := 0; msgs := five_messages; show_id := decimal_id |}.


(** ** Further notions: sections, waiters, the program of [main] *)

(** The thread a transition belongs to. *)
Definition thread_of (l : label) : thread :=
  match l with
  | LOwner _ => Owner
  | LWorker i | LSpurious i => Worker i
  end.

(** The thread is between an acquisition of [queue_mutex_] and its release
    (lines 31-33, 40-42 and 52-60). *)
Definition in_section (s : World) (th : thread) : Prop :=
  match th with
  | Owner => owner_holds (owner s) = true
  | Worker i => ∃ pc, workers_ s !! i = Some pc ∧ holds_lock pc = true
  end.

(** The number of statements a worker has still to execute before it
    releases [queue_mutex_], at most. *)
Definition lock_rank (pc : wpc) : nat :=
  match pc with
  | WPred => 5
  | WExitTest => 4
  | WFront => 3
  | WPop _ => 2
  | WUnlock _ => 1
  | _ => 0
  end.

(** A worker that is neither blocked on [cv_] nor returned: it reaches the
    predicate of line 54 without being notified. *)
Definition awake (pc : wpc) : bool :=
  match pc with
  | WWait | WDone => false
  | _ => true
  end.

(** The owner is between the push of line 41 and the [notify_one] of
    line 43. *)
Definition notifying (pc : mpc) : bool :=
  match pc with
  | MEnqUnlock _ _ | MEnqNotify _ _ => true
  | _ => false
  end.

(** The queue is looked after: a notification is on its way, or a worker
    is awake. *)
Definition served (s : World) : Prop :=
  notifying (owner s) = true
  ∨ ∃ i pc, workers_ s !! i = Some pc ∧ awake pc = true.

(** The number of threads blocked on [cv_]. *)
Definition waiters (ws : list wpc) : nat :=
  sum_list_with (λ pc, if is_wait pc then 1 else 0) ws.

(** The events of a history that are of worker [i], and the task that
    worker has removed and not yet finished printing. *)
Definition by_worker (i : nat) (es : list (nat * string)) : list (nat * string) :=
  filter (λ e, e.1 = i) es.

Definition flight (s : World) (i : nat) : list (nat * string) :=
  match workers_ s !! i with
  | Some pc => (λ t, (i, t)) <$> in_flight pc
  | None => []
  end.

(** [main] (lines 77-90), for any way of printing a thread id: the banner of
    line 80, a pool of two workers (line 81), and the messages that the loop
    of lines 84-86 builds with [std::to_string]. *)
Definition banner : list ascii :=
  list_ascii_of_string "Starting the thread pool..." ++ [newline].

Definition main_msgs : list string :=
  (λ i : nat, "Message " +:+ pretty i) <$> seq 1 5.

Definition main_program (sid : nat → string) : Config :=
  {| num_workers := 2; msgs := main_msgs; show_id := sid |}.

(** What [main] has written to [std::cout] in a state of its pool. *)
Definition main_output (s : World) : list ascii :=
  banner ++ text (cout s).

(** A worker of [main] woken with nothing to do; [main] with a message in
    the queue behind a worker that has not started. *)
Definition wait_sched : list label :=
  [LOwner 0; LOwner 0; LOwner 0; LWorker 0; LWorker 0].

Definition wait_state : World * History :=
  Eval vm_compute in @result main_cfg wait_sched init no_history.

(** [main] with worker 0 about to call [front], about to call [pop], and
    about to print. *)
Definition front_sched : list label :=
  pred_sched ++ [LWorker 0; LWorker 0].

Definition front_state : World * History :=
  Eval vm_compute in @result main_cfg front_sched init no_history.

Definition pop_sched : list label :=
  front_sched ++ [LWorker 0].

Definition pop_state : World * History :=
  Eval vm_compute in @result main_cfg pop_sched init no_history.

Definition print_sched : list label :=
  pop_sched ++ [LWorker 0; LWorker 0].

Definition print_state : World * History :=
  Eval vm_compute in @result main_cfg print_sched init no_history.

(** [main] inside the constructor, with the first worker already blocked
    on [cv_]. *)
Definition ctor_sched : list label :=
  [LOwner 0; LWorker 0; LWorker 0].

Definition ctor_state : World * History :=
  Eval vm_compute in @result main_cfg ctor_sched init no_history.

(** Three workers and no message: the owner at the destructor with two
    workers blocked on [cv_]; and at the first join with every worker
    returned. *)
Definition dtor_sched : list label :=
  replicate 4 (LOwner 0) ++ [LWorker 0; LWorker 0; LWorker 1; LWorker 1].

Definition dtor_state : World * History :=
  Eval vm_compute in @result idle_cfg dtor_sched init no_history.

Definition join_sched : list label :=
  dtor_sched ++ replicate 4 (LOwner 0) ++ replicate 3 (LWorker 0)
    ++ replicate 3 (LWorker 1) ++ replicate 3 (LWorker 2).

Definition join_state : World * History :=
  Eval vm_compute in @result idle_cfg join_sched init no_history.

(** ** The lines of the stream *)

(** The whole lines of a text: the runs of characters that an end of line
    ends, without it.  What follows the last end of line is not a line
    yet. *)
Fixpoint whole_lines (out : list ascii) : list (list ascii) :=
  match out with
  | [] => []
  | c :: out' =>
    if Ascii.eqb c newline then [] :: whole_lines out'
    else match whole_lines out' with
         | [] => []
         | l :: ls => (c :: l) :: ls
         end
  end.

(** A string without an end of line. *)
Definition one_line (t : string) : Prop :=
  newline ∉ list_ascii_of_string t.

(** One worker and one message, whose payload has an end of line in it. *)
Definition two_line_payload : string :=
  String "a" (String newline (String "b" EmptyString)).

Definition newline_cfg : Config :=
  {| num_workers := 1; msgs := [two_line_payload]; show_id := decimal_id |}.

Definition newline_sched : list label :=
  Eval vm_compute in @greedy newline_cfg true 400 [LWorker 0; LOwner 0] init.

Definition newline_final : World * History :=
  Eval vm_compute in @result newline_cfg newline_sched init no_history.

(** * Proofs *)

Section Proofs.
Context `{cfg : Config}.

(** ** The line of a task *)

Lemma wline_lookup i t k c :
  line i t !! k = Some c → wline (i, t) !! k = Some (i, c).
Proof. intros H. unfold wline. by rewrite list_lookup_fmap; simpl; rewrite H. Qed.

Lemma wline_length e : length (wline e) = length (line e.1 e.2).
Proof. unfold wline. by rewrite length_fmap. Qed.

Lemma list_ascii_of_string_app a b :
  list_ascii_of_string (a +:+ b)
  = list_ascii_of_string a ++ list_ascii_of_string b.
Proof. induction a as [|c a IH]; simpl; [done|]. by rewrite IH. Qed.

Lemma line_format i t :
  line i t
  = list_ascii_of_string (worker_identifier i +:+ ": " +:+ t) ++ [newline].
Proof.
  unfold line, worker_identifier.
  by rewrite !list_ascii_of_string_app, <- !app_assoc.
Qed.

Lemma text_wline e : text (wline e) = line e.1 e.2.
Proof.
  unfold text, wline. rewrite <- list_fmap_compose.
  induction (line e.1 e.2) as [|c l IH]; [done|].
  rewrite fmap_cons. by rewrite IH.
Qed.

Lemma wline_writer e : Forall (λ x, x.1 = e.1) (wline e).
Proof. unfold wline. apply Forall_fmap. by apply Forall_true. Qed.

Local Opaque line wline.

(** ** Tactics *)

(** The transition that [H : step l s = Some s'] is, one goal for each. *)
Ltac step_inv H :=
  unfold step, owner_step, worker_step, spurious, notify_one in H;
  repeat (case_match; simplify_eq/=; try done);
  try (apply fmap_Some in H as (? & H & ?));
  repeat (case_match; simplify_eq/=; try done).

(** Lookups in the vectors the transitions build. *)
Ltac lookups :=
  repeat match goal with
  | H : <[_:=_]> _ !! _ = Some _ |- _ =>
    apply list_lookup_insert_Some in H as [(? & ? & ?) | (? & ?)]
  | H : (wake <$> _) !! _ = Some _ |- _ =>
    rewrite list_lookup_fmap in H;
    apply fmap_Some in H as (? & ? & ?)
  | H : (_ ++ [_]) !! _ = Some _ |- _ =>
    apply lookup_snoc_Some in H as [(? & ?) | (? & ?)]
  end.

(** Adds a fact to the context unless it is there. *)
Ltac learn pf :=
  let T := type of pf in
  lazymatch goal with
  | _ : T |- _ => fail
  | _ => pose proof pf
  end.

(** Takes apart the hypotheses that are conjunctions, witnesses or tests
    of the source. *)
Ltac unpack :=
  repeat match goal with
         | H : ∃ _, _ |- _ => destruct H as [? H]
         | H : _ ∧ _ |- _ => destruct H
         | H : ?j < S ?i |- _ =>
           let H' := fresh in
           assert (H' : j < i ∨ j = i) by lia; clear H;
           destruct H' as [H' | ->]
         | H : ?b || _ = _ |- _ => destruct b eqn:?; simpl in H
         | H : ?b && _ = _ |- _ => destruct b eqn:?; simpl in H
         | H : negb (empty ?q) = _ |- _ => destruct q; simpl in H
         | H : empty ?q = _ |- _ => destruct q; simpl in H
         | H : (_ <? _) = true |- _ => apply Nat.ltb_lt in H
         | H : (_ <? _) = false |- _ => apply Nat.ltb_ge in H
         | H : _ ↔ true = true |- _ => apply proj2 in H; specialize (H eq_refl)
         | H : _ ↔ false = true |- _ =>
           apply proj1 in H;
           let H' := fresh in
           assert (H' := λ x, eq_ind false (λ b, if b then False else True) I _ (H x));
           clear H
         end.

Ltac bounds :=
  repeat match goal with
         | H : _ !! _ = None |- _ => apply lookup_ge_None in H
         | H : _ !! _ = Some _ |- _ => learn (lookup_lt_Some _ _ _ H)
         end.

(** What the invariant says of the workers in the context. *)
Ltac saturate :=
  repeat match goal with
  | Hw : (∀ i pc, ?ws !! i = Some pc → holds_lock pc = true → _),
    H : ?ws !! ?i = Some ?pc |- _ =>
    first [ learn (Hw i pc H eq_refl)
          | match goal with Hh : holds_lock pc = true |- _ =>
              learn (Hw i pc H Hh) end ]
  | Hc : (∀ i t k, ?ws !! i = Some (WWrite t k) → _),
    H : ?ws !! ?i = Some (WWrite ?t ?k) |- _ => learn (Hc i t k H)
  | Hloc : (∀ i pc, ?ws !! i = Some pc → local_ok _ pc),
    H : ?ws !! ?i = Some ?pc |- _ => learn (Hloc i pc H)
  | Hw' : (∀ i, ?m = Some (Worker i) → _), H : ?m = Some (Worker ?i) |- _ =>
    learn (Hw' i H)
  | Hw' : (∀ i, Some (Worker ?j) = Some (Worker i) → _) |- _ =>
    learn (Hw' j eq_refl)
  | Hc' : (∀ i, ?m = Some i → ∃ t k, _), H : ?m = Some ?i |- _ =>
    learn (Hc' i H)
  | Hc' : (∀ i, Some ?j = Some i → ∃ t k, _) |- _ =>
    learn (Hc' j eq_refl)
  | Hnw : (?a = true → ∀ i, ?ws !! i ≠ Some WWait), H : ?a = true |- _ =>
    learn (Hnw H)
  | Hnw : (true = true → ∀ i, ?ws !! i ≠ Some WWait) |- _ =>
    learn (Hnw eq_refl)
  | Hn : (∀ i, ?ws !! i ≠ Some WWait), H : ?ws !! ?i = Some WWait |- _ =>
    destruct (Hn i H)
  | Hj : (∀ j pc, @?P j → ?ws !! j = Some pc → pc = WDone),
    H : ?ws !! ?i = Some ?pc |- _ =>
    first [ learn (Hj i pc I H)
          | match goal with Hjo : joined _ i |- _ => learn (Hj i pc Hjo H) end
          | let Hlt := fresh in
            assert (Hlt : P i) by (simpl; first [done | lia]);
            learn (Hj i pc Hlt H); clear Hlt ]
  end.

(** ** The invariant holds in every reachable state *)

Lemma Inv_init : Inv init.
Proof. split; simpl; try done; lia. Qed.

Lemma owner_holds_next todo : owner_holds (next_call todo) = false.
Proof. by destruct todo. Qed.
Lemma stopping_next todo : stopping (next_call todo) = false.
Proof. by destruct todo. Qed.
Lemma joining_next todo : joining (next_call todo) = false.
Proof. by destruct todo. Qed.
Lemma spawned_next todo : spawned (next_call todo) = num_workers.
Proof. by destruct todo. Qed.
Lemma joined_next todo j : joined (next_call todo) j ↔ False.
Proof. by destruct todo. Qed.

(** Cases on the control point of the worker a goal is about. *)
Ltac splits :=
  repeat match goal with
         | H : context [wake ?pc] |- _ => is_var pc; destruct pc; simpl in *
         | H : local_ok _ ?pc |- _ => is_var pc; destruct pc; simpl in *
         | |- local_ok _ ?pc => is_var pc; destruct pc; simpl in *
         end.

(** Lookups in the vectors of the goal. *)
Ltac goal_lookups :=
  repeat match goal with
  | |- context [<[?k:=_]> _ !! ?i] =>
    first [ rewrite list_lookup_insert_eq by eauto using lookup_lt_Some
          | rewrite list_lookup_insert_ne by done
          | destruct (decide (k = i)) as [->|] ]
  | |- context [(wake <$> _) !! _] => rewrite list_lookup_fmap
  | |- context [(_ ++ [_]) !! _] =>
    rewrite lookup_app_l by eauto using lookup_lt_Some
  | H : ?l !! ?i = _ |- context [?l !! ?i] => rewrite H; simpl
  | |- context [_ <$> (?l !! ?i)] => destruct (l !! i) as [[]|] eqn:?; simpl
  | |- context [length (<[_:=_]> _)] => rewrite length_insert
  | |- context [length (_ ++ _)] => rewrite length_app
  | |- context [length (_ <$> _)] => rewrite length_fmap
  end.

Ltac fin := simplify_eq/=; try done; try lia; try congruence.

Ltac go :=
  rewrite ?owner_holds_next, ?stopping_next, ?joining_next, ?spawned_next;
  try match goal with
      | Ho : _ ↔ owner_holds ?o = true |- _ ↔ owner_holds ?o = true =>
        destruct (owner_holds o)
      end;
  try (split; [intros | done]); try (split; [done | intros _]);
  intros;
  repeat match goal with H : joined (next_call _) _ |- _ => apply joined_next in H end;
  saturate; lookups; unpack; bounds; saturate; unpack; fin;
  splits; saturate; unpack; destruct_or?; fin;
  goal_lookups; fin; eauto 6;
  try (left; fin; eauto; fail); try (right; fin; eauto; fail);
  try (split; fin; eauto; fail);
  try (match goal with o : mpc |- _ => destruct o; simpl in * end;
       unpack; fin; eauto 6; fail).

Lemma Inv_step l s s' : Inv s → step l s = Some s' → Inv s'.
Proof.
  intros [Hw Hw' Ho Hc Hc' Hloc Hstop Hnw Hlen Hle Hj] H.
  destruct s as [ws q m st cm out o]; simpl in *.
  step_inv H.
  all: split; simpl.
  all: go.
Qed.

(** ** The history of a run describes the state it ends in *)

Lemma bind_insert {A} (f : wpc → list A) ws i pc pc' :
  ws !! i = Some pc →
  ∃ a b, ws ≫= f = a ++ f pc ++ b ∧ <[i:=pc']> ws ≫= f = a ++ f pc' ++ b.
Proof.
  intros Hi. exists (take i ws ≫= f), (drop (S i) ws ≫= f).
  rewrite insert_take_drop by eauto using lookup_lt_Some.
  rewrite <- (take_drop_middle ws i pc) at 1 by done.
  by rewrite !bind_app, !bind_cons.
Qed.

Lemma bind_insert_one {A} (f : wpc → list A) ws i pc pc' :
  length ws ≤ 1 → ws !! i = Some pc →
  ws ≫= f = f pc ∧ <[i:=pc']> ws ≫= f = f pc'.
Proof.
  destruct ws as [|? [|]]; simpl; intros ? Hi; try lia; [done|].
  destruct i; simplify_eq/=. by rewrite !app_nil_r.
Qed.

Lemma bind_wake ws : (wake <$> ws) ≫= in_flight = ws ≫= in_flight.
Proof.
  induction ws as [|pc ws IH]; [done|].
  rewrite fmap_cons, !bind_cons, IH. by destruct pc.
Qed.

Lemma render_snoc es e : render (es ++ [e]) = render es ++ wline e.
Proof. unfold render. rewrite bind_app, bind_cons. simpl. by rewrite app_nil_r. Qed.

Lemma HInv_init : HInv no_history init.
Proof. split; simpl; done. Qed.

Lemma to_push_next todo : to_push (next_call todo) = todo.
Proof. by destruct todo. Qed.

(** The unfinished line is that of the holder of [cout_mutex]: a
    transition of another thread leaves it as it is. *)
Lemma pending_frame s s' :
  cout_mutex s' = cout_mutex s →
  (∀ i, cout_mutex s = Some i → workers_ s' !! i = workers_ s !! i) →
  pending s' = pending s.
Proof.
  unfold pending. intros -> Hi. destruct (cout_mutex s) as [i|]; [|done].
  by rewrite Hi.
Qed.

Ltac reduce_obs :=
  repeat match goal with
         | H : ?x = _ |- context [match ?x with _ => _ end] => rewrite H
         end;
  simpl; rewrite ?app_nil_r, ?to_push_next.

Ltac frame_pending :=
  erewrite pending_frame; [eassumption | done |];
  simpl; intros; saturate; unpack;
  first [ by rewrite list_lookup_insert_ne by congruence
        | by rewrite lookup_app_l by eauto using lookup_lt_Some
        | rewrite list_lookup_fmap;
          match goal with H : ?l !! ?i = _ |- context [?l !! ?i] => by rewrite H end ].

Lemma HInv_step l s s' h :
  Inv s → HInv h s → step l s = Some s' → HInv (observe l s h) s'.
Proof.
  intros [Hw Hw' Ho Hc Hc' Hloc Hstop Hnw Hlen Hle Hj] [Hm Hf Hp Ho1 Hco Hid] H.
  destruct s as [ws q m st cm out o], h as [pu po ex]; simpl in *.
  step_inv H.
  all: split; simpl; reduce_obs; rewrite ?app_nil_r in *.
  all: try done.
  all: try (by rewrite <- ?app_assoc).
  all: try (frame_pending; fail).
  (* the tasks in flight *)
  all: try (rewrite ?length_insert, ?length_fmap, ?bind_wake;
            intros Hone; specialize (Ho1 Hone)).
  all: try match goal with
       | |- context [(wake <$> _) ≫= in_flight] => by rewrite bind_wake
       | Hone : _ ≤ 1, H : ?ws !! ?i = Some ?pc
         |- context [<[?i:=?pc']> ?ws ≫= in_flight] =>
         destruct (bind_insert_one in_flight ws i pc pc' Hone H) as [E1 E2];
         rewrite E1 in Ho1; rewrite E2
       | H : ?ws !! ?i = Some ?pc
         |- context [<[?i:=?pc']> ?ws ≫= in_flight] =>
         destruct (bind_insert in_flight ws i pc pc' H) as (pre & post & E1 & E2);
         rewrite E1 in Hp; rewrite E2
       end.
  all: saturate; simpl in *; unpack; simplify_eq/=.
  all: rewrite ?fmap_app, ?app_nil_r in *; simpl in *.
  all: try done.
  all: try (by rewrite <- ?app_assoc).
  all: try (rewrite Hp; solve_Permutation).
  all: try (rewrite ?length_app, bind_app; simpl; rewrite app_nil_r;
            first [done | intros; apply Ho1; lia]).
  all: try (by rewrite Hm, <- !app_assoc).
  all: try congruence.
  all: try (apply Forall_app; split; [done|]; bounds;
            repeat constructor; simpl; lia).
  (* the output stream *)
  all: unfold pending in *; simpl in *;
    repeat match goal with
           | H : ?x = _, H' : context [match ?x with _ => _ end] |- _ =>
             rewrite H in H'
           end;
    rewrite ?list_lookup_insert_eq by eauto using lookup_lt_Some; simpl.
  - by rewrite app_nil_r.
  - erewrite take_S_r by by apply wline_lookup.
    by rewrite Hco, app_assoc.
  - rewrite render_snoc, Hco, take_ge; [done|].
    rewrite wline_length. by apply lookup_ge_None.
Qed.

(** ** The variant *)

Lemma sum_insert (f : wpc → nat) ws i pc pc' :
  ws !! i = Some pc →
  sum_list_with f (<[i:=pc']> ws) + f pc = sum_list_with f ws + f pc'.
Proof.
  revert i. induction ws as [|x ws IH]; intros [|i] Hi; simplify_eq/=; [lia|].
  specialize (IH i Hi). lia.
Qed.

Lemma sum_wake ws :
  sum_list_with worker_cost (wake <$> ws)
  ≤ sum_list_with worker_cost ws + 5 * length ws.
Proof.
  induction ws as [|pc ws IH]; [simpl; lia|].
  assert (worker_cost (wake pc) ≤ worker_cost pc + 5) by (destruct pc; simpl; lia).
  rewrite fmap_cons, length_cons.
  change (sum_list_with worker_cost (wake pc :: (wake <$> ws)))
    with (worker_cost (wake pc) + sum_list_with worker_cost (wake <$> ws)).
  change (sum_list_with worker_cost (pc :: ws))
    with (worker_cost pc + sum_list_with worker_cost ws).
  lia.
Qed.

Lemma line_bound_le i t : i < num_workers → length (line i t) ≤ line_bound t.
Proof.
  intros Hi. unfold line_bound. apply max_list_elem_of_le.
  apply (list_elem_of_fmap_2 (λ i, length (line i t))), elem_of_seq. lia.
Qed.

Lemma owner_cost_next nw todo :
  owner_cost nw (next_call todo) = 5 + 6 * nw + calls_cost todo.
Proof. destruct todo; simpl; unfold calls_cost; simpl; lia. Qed.

Lemma cost_step l s s' :
  Inv s → step l s = Some s' → cost s' + 1 ≤ cost s + penalty l.
Proof.
  intros [Hw Hw' Ho Hc Hc' Hloc Hstop Hnw Hlen Hle Hj] H.
  destruct s as [ws q m st cm out o]; unfold cost; simpl in *.
  step_inv H.
  all: rewrite ?owner_cost_next, ?length_insert, ?length_app, ?length_fmap,
         ?sum_list_with_app; simpl.
  all: repeat match goal with
       | H : ?ws !! ?i = Some ?pc |- context [<[?i:=?pc']> ?ws] =>
         pose proof (sum_insert worker_cost ws i pc pc' H);
         generalize dependent (sum_list_with worker_cost (<[i:=pc']> ws)); intros
       | |- context [wake <$> ?ws] =>
         pose proof (sum_wake ws);
         generalize dependent (sum_list_with worker_cost (wake <$> ws)); intros
       end.
  all: saturate; simpl in *; unfold calls_cost, task_cost in *; simpl in *.
  all: bounds; unpack; simplify_eq/=.
  all: try lia.
  all: repeat match goal with
       | H : line ?i ?t !! _ = Some _ |- _ =>
         learn (line_bound_le i t ltac:(lia))
       end.
  all: lia.
Qed.


(** ** Runs *)

Lemma run_app sched1 sched2 s h :
  run (sched1 ++ sched2) s h
  = run sched1 s h ≫= λ r, run sched2 r.1 r.2.
Proof.
  revert s h. induction sched1 as [|l sched1 IH]; intros s h; [done|].
  simpl. destruct (step l s); [apply IH | done].
Qed.

Lemma run_Inv sched s h s' h' :
  Inv s → HInv h s → run sched s h = Some (s', h') → Inv s' ∧ HInv h' s'.
Proof.
  revert s h. induction sched as [|l sched IH]; intros s h HI HH Hrun.
  - by simplify_eq/=.
  - simpl in Hrun. destruct (step l s) as [s1|] eqn:Hstep; [|done].
    eapply IH; [| |done]; eauto using Inv_step, HInv_step.
Qed.

Lemma reachable_Inv sched s h :
  run sched init no_history = Some (s, h) → Inv s ∧ HInv h s.
Proof. apply run_Inv; [apply Inv_init | apply HInv_init]. Qed.

Lemma run_cost sched s h s' h' :
  Inv s → run sched s h = Some (s', h') →
  cost s' + length sched ≤ cost s + 6 * spurious_count sched.
Proof.
  revert s h. induction sched as [|l sched IH]; intros s h HI Hrun.
  - simplify_eq/=. lia.
  - simpl in Hrun. destruct (step l s) as [s1|] eqn:Hstep; [|done].
    pose proof (cost_step _ _ _ HI Hstep).
    pose proof (IH _ _ (Inv_step _ _ _ HI Hstep) Hrun).
    unfold spurious_count in *. simpl. destruct l; simpl in *; lia.
Qed.

(** The history of a run extends the history it starts with. *)
Lemma run_history sched s h s' h' :
  run sched s h = Some (s', h') →
  ∃ pu po ex, pushed h' = pushed h ++ pu ∧ popped h' = popped h ++ po
              ∧ executed h' = executed h ++ ex.
Proof.
  revert s h. induction sched as [|l sched IH]; intros s h Hrun.
  - simplify_eq/=. exists [], [], []. by rewrite !app_nil_r.
  - simpl in Hrun. destruct (step l s) as [s1|] eqn:Hstep; [|done].
    destruct (IH _ _ Hrun) as (pu & po & ex & -> & -> & ->). simpl.
    eexists _, _, _. by rewrite <- !app_assoc.
Qed.

(** ** No deadlock *)

Lemma waiter_lookup ws :
  existsb is_wait ws = true → ∃ k, ws !! k = Some WWait.
Proof.
  intros (pc & Hin & Hw)%existsb_exists.
  apply list_elem_of_In, list_elem_of_lookup in Hin as [k Hk].
  exists k. by destruct pc.
Qed.

Lemma progress s : Inv s → owner s ≠ MDone → ∃ l, enabled l s.
Proof.
  intros [Hw Hw' Ho Hc Hc' Hloc Hstop Hnw Hlen Hle Hj] Hnd.
  destruct s as [ws q m st cm out o]; simpl in *.
  unfold enabled, step, owner_step, worker_step, notify_one; simpl.
  destruct m as [[|i]|].
  - (* the owner holds queue_mutex_ *)
    exists (LOwner 0). split; [done|]. simpl.
    apply proj1 in Ho. specialize (Ho eq_refl). destruct o; simplify_eq/=; eauto.
  - (* a worker holds it *)
    destruct (Hw' i eq_refl) as (pc & Hi & Hh).
    exists (LWorker i). split; [done|]. simpl. rewrite Hi.
    specialize (Hloc _ _ Hi).
    destruct pc; simplify_eq/=; repeat case_match; unpack; simplify_eq/=; eauto.
  - destruct cm as [i|].
    + (* a worker holds cout_mutex *)
      destruct (Hc' i eq_refl) as (t & k & Hi).
      exists (LWorker i). split; [done|]. simpl. rewrite Hi.
      case_match; eauto.
    + destruct o; try done.
      all: try (exists (LOwner 0); split; [done|]; simpl; repeat case_match; by eauto).
      * destruct (existsb is_wait ws) eqn:He.
        -- destruct (waiter_lookup _ He) as [k Hk].
           exists (LOwner k). split; [done|]. simpl. rewrite ?He, Hk. eauto.
        -- exists (LOwner 0). split; [done|]. simpl. rewrite ?He. eauto.
      * destruct (ws !! i) as [pc|] eqn:Hi.
        -- destruct (decide (pc = WDone)) as [->|].
           { exists (LOwner 0). split; [done|]. simpl. eauto. }
           exists (LWorker i). split; [done|]. simpl. rewrite ?Hi.
           destruct pc; simpl in *; saturate; simplify_eq/=;
             repeat case_match; eauto.
        -- exists (LOwner 0). split; [done|]. simpl. eauto.
Qed.

(** From every state of the invariant the destructor can return, and it
    does so within [cost s] transitions if no wake-up is spurious. *)
Lemma can_finish s h :
  Inv s →
  ∃ sched s' h', run sched s h = Some (s', h') ∧ owner s' = MDone
                 ∧ spurious_count sched = 0 ∧ length sched ≤ cost s.
Proof.
  remember (cost s) as c eqn:Hc. revert s h Hc.
  induction c as [c IH] using lt_wf_ind. intros s h -> HI.
  destruct (decide (owner s = MDone)) as [Hd|Hd].
  { exists [], s, h. simpl. split_and!; [done|done|done|lia]. }
  destruct (progress s HI Hd) as (l & Hl & s1 & Hs1).
  pose proof (cost_step _ _ _ HI Hs1) as Hlt. rewrite Hl in Hlt.
  destruct (IH (cost s1) ltac:(lia) s1 (observe l s h) eq_refl
               (Inv_step _ _ _ HI Hs1)) as (sched & s' & h' & Hrun & ? & Hsp & ?).
  exists (l :: sched), s', h'. simpl. rewrite Hs1.
  split_and!; [done|done| |lia].
  unfold spurious_count in *. simpl. rewrite Hsp. by destruct l.
Qed.

(** ** The state in which the destructor has returned *)

Lemma all_done_in_flight ws :
  (∀ i pc, ws !! i = Some pc → pc = WDone) → ws ≫= in_flight = [].
Proof.
  induction ws as [|pc ws IH]; intros Hd; [done|].
  rewrite bind_cons, IH; [|intros i; apply (Hd (S i))].
  by rewrite (Hd 0 pc eq_refl).
Qed.

Lemma in_flight_elem ws i pc t :
  ws !! i = Some pc → t ∈ in_flight pc → t ∈ ws ≫= in_flight.
Proof.
  intros Hi Ht. apply list_elem_of_bind. exists pc.
  split; [done|]. by eapply list_elem_of_lookup_2.
Qed.

Lemma returned s h :
  Inv s → HInv h s → owner s = MDone →
  length (workers_ s) = num_workers
  ∧ (∀ i pc, workers_ s !! i = Some pc → pc = WDone)
  ∧ queue_mutex_ s = None ∧ cout_mutex s = None ∧ stop_ s = true
  ∧ pushed h = msgs
  ∧ (popped h).*2 ≡ₚ (executed h).*2
  ∧ cout s = render (executed h)
  ∧ (0 < num_workers → tasks_ s = []).
Proof.
  intros [Hw Hw' Ho Hc Hc' Hloc Hstop Hnw Hlen Hle Hj] [Hm Hf Hp Ho1 Hco Hid] Hd.
  rewrite Hd in *. simpl in *.
  assert (Hall : ∀ i pc, workers_ s !! i = Some pc → pc = WDone) by eauto.
  assert (cout_mutex s = None) as Hcm.
  { destruct (cout_mutex s) as [i|] eqn:E; [|done].
    destruct (Hc' i eq_refl) as (t & k & Hi). by specialize (Hall _ _ Hi). }
  split_and!; try done.
  - destruct (queue_mutex_ s) as [[|i]|] eqn:E; [| |done].
    + by pose proof (proj1 Ho eq_refl).
    + destruct (Hw' i eq_refl) as (pc & Hi & Hh).
      by rewrite (Hall _ _ Hi) in Hh.
  - by rewrite Hm, app_nil_r.
  - by rewrite Hp, (all_done_in_flight _ Hall), app_nil_r.
  - unfold pending in Hco. rewrite Hcm in Hco. by rewrite Hco, app_nil_r.
  - intros Hn. destruct (workers_ s !! 0) as [pc|] eqn:H0.
    + specialize (Hloc _ _ H0). rewrite (Hall _ _ H0) in Hloc. by destruct Hloc.
    + apply lookup_ge_None in H0. lia.
Qed.

(** With one worker the order of execution is the order of submission. *)
Lemma single_worker_order s h :
  Inv s → HInv h s → owner s = MDone → num_workers = 1 →
  (executed h).*2 = msgs ∧ cout s = render (executed h).
Proof.
  intros HI HH Hd H1.
  destruct (returned s h HI HH Hd)
    as (Hlen & Hall & _ & _ & _ & Hpu & _ & Hco & Hq).
  split; [|done].
  pose proof (hinv_order _ _ HH ltac:(lia)) as Ho.
  rewrite (all_done_in_flight _ Hall), app_nil_r in Ho.
  rewrite <- Ho, <- Hpu, <- (hinv_fifo _ _ HH), Hq by lia.
  by rewrite app_nil_r.
Qed.

(** ** Exactly once, drain and join *)

(** C1. Exactly-once execution.  Take a pool with at least one worker (the
    interface of the specification asks for a positive worker count) and
    any interleaving of the owner, which enqueues the [N] strings of [msgs]
    and then runs the destructor, with the workers.  The run is finite
    unless wake-ups are spurious for ever, a thread can move as long as
    the destructor has not returned, and from every state of the run the
    destructor can still return.  When it has returned, the [N] strings
    have all been pushed, the tasks whose output statement a worker
    completed are, with multiplicity, the [N] strings (no loss, no
    duplication), each execution is by one worker of the pool, the output
    consists of the lines of these executions, and the queue is empty. *)
Theorem exactly_once sched s h :
  0 < num_workers →
  run sched init no_history = Some (s, h) →
  length sched ≤ cost init + 6 * spurious_count sched
  ∧ (owner s ≠ MDone → ∃ l, enabled l s)
  ∧ (∃ sched' s' h', run sched' s h = Some (s', h') ∧ owner s' = MDone)
  ∧ (owner s = MDone →
     pushed h = msgs
     ∧ (executed h).*2 ≡ₚ msgs
     ∧ length (executed h) = length msgs
     ∧ Forall (λ e, e.1 < num_workers) (executed h)
     ∧ cout s = render (executed h)
     ∧ tasks_ s = []).
Proof.
  intros Hn Hrun. destruct (reachable_Inv _ _ _ Hrun) as [HI HH]. split_and!.
  - pose proof (run_cost _ _ _ _ _ Inv_init Hrun). lia.
  - by apply progress.
  - destruct (can_finish s h HI) as (sched' & s' & h' & ? & ? & _); eauto.
  - intros Hd.
    destruct (returned s h HI HH Hd)
      as (_ & _ & _ & _ & _ & Hpu & Hperm & Hco & Hq).
    specialize (Hq Hn).
    assert ((executed h).*2 ≡ₚ msgs) as Hex.
    { rewrite <- Hperm, <- Hpu, <- (hinv_fifo _ _ HH), Hq. by rewrite app_nil_r. }
    split_and!; try done.
    + by rewrite <- (length_fmap snd), Hex.
    + apply HH.
Qed.

(** C2. Drain and clean termination.  In a pool with at least one worker,
    let [s1] be a state in which the owner has just set [stop_] (it is at
    line 33, still holding [queue_mutex_]), and [s2] a later state in
    which the destructor has returned.  Then the tasks executed between
    the two are, with multiplicity, the tasks that were in the queue at
    [s1] and those a worker had already removed and not yet printed; the
    queue is empty; and all [num_workers] threads have returned from
    [Worker].  The destructor cannot pass [join] on a thread that has not
    returned. *)
Theorem drain_and_join sched1 sched2 s1 h1 s2 h2 :
  0 < num_workers →
  run sched1 init no_history = Some (s1, h1) →
  owner s1 = MDtorUnlock →
  run sched2 s1 h1 = Some (s2, h2) →
  owner s2 = MDone →
  stop_ s1 = true
  ∧ (∃ ex, executed h2 = executed h1 ++ ex
           ∧ ex.*2 ≡ₚ (workers_ s1 ≫= in_flight) ++ tasks_ s1)
  ∧ tasks_ s2 = []
  ∧ length (workers_ s2) = num_workers
  ∧ (∀ i pc, workers_ s2 !! i = Some pc → pc = WDone)
  ∧ (∀ s i pc k, owner s = MJoin i → workers_ s !! i = Some pc →
       pc ≠ WDone → step (LOwner k) s = None).
Proof.
  intros Hn Hrun1 Ho1 Hrun2 Ho2.
  destruct (reachable_Inv _ _ _ Hrun1) as [HI1 HH1].
  destruct (run_Inv _ _ _ _ _ HI1 HH1 Hrun2) as [HI2 HH2].
  destruct (returned s2 h2 HI2 HH2 Ho2)
    as (Hlen & Hall & _ & _ & _ & Hpu & Hperm & _ & Hq).
  specialize (Hq Hn).
  destruct (run_history _ _ _ _ _ Hrun2) as (pu & po & ex & Hpu2 & Hpo2 & Hex2).
  split_and!; try done.
  - by rewrite (inv_stop _ HI1), Ho1.
  - exists ex. split; [done|].
    pose proof (hinv_msgs _ _ HH1) as Hm1. rewrite Ho1 in Hm1. simpl in Hm1.
    rewrite app_nil_r in Hm1.
    assert ((popped h2).*2 = (popped h1).*2 ++ tasks_ s1) as Hpop.
    { pose proof (hinv_fifo _ _ HH2) as Hf2. rewrite Hq, app_nil_r in Hf2.
      by rewrite Hf2, Hpu, Hm1, (hinv_fifo _ _ HH1). }
    rewrite Hpop, Hex2, fmap_app, (hinv_conserve _ _ HH1) in Hperm.
    rewrite <- (assoc (++)) in Hperm.
    by apply (inj (app _)) in Hperm.
  - intros s i pc k Hs Hi Hpc. unfold step, owner_step. rewrite Hs, Hi.
    by destruct pc.
Qed.

(** ** The dequeue step *)

(** While a worker is between the acquisition and the release of
    [queue_mutex_], no other thread changes the queue, the flag or the
    control point of that worker. *)
Lemma lock_excludes s s' l i pc :
  Inv s → workers_ s !! i = Some pc → holds_lock pc = true →
  step l s = Some s' → l ≠ LWorker i →
  tasks_ s' = tasks_ s ∧ stop_ s' = stop_ s ∧ workers_ s' !! i = Some pc.
Proof.
  intros [Hw Hw' Ho Hc Hc' Hloc Hstop Hnw Hlen Hle Hj] Hi Hh H Hl.
  destruct s as [ws q m st cm out o]; simpl in *.
  step_inv H.
  all: saturate; simpl in *; unpack; simplify_eq/=.
  all: split_and!; try done.
  all: goal_lookups; fin.
  by destruct pc.
Qed.

(** The control point a worker moves to, and what it does to the queue. *)
Lemma worker_step_pc s s' i pc :
  workers_ s !! i = Some pc → step (LWorker i) s = Some s' →
  ∃ pc', workers_ s' !! i = Some pc' ∧
    match pc with
    | WLock | WWoken => pc' = WPred ∧ queue_mutex_ s = None
    | WPred =>
      if stop_ s || negb (empty (tasks_ s)) then pc' = WExitTest
      else pc' = WWait ∧ queue_mutex_ s' = None
    | WExitTest =>
      if stop_ s && empty (tasks_ s)
      then pc' = WDone ∧ queue_mutex_ s' = None
      else pc' = WFront
    | WFront => ∃ t q, tasks_ s = t :: q ∧ pc' = WPop t
    | WPop t => ∃ x q, tasks_ s = x :: q ∧ tasks_ s' = q ∧ pc' = WUnlock t
    | WUnlock t => pc' = WCoutLock t ∧ queue_mutex_ s' = None
    | WCoutLock t => pc' = WWrite t 0
    | WWrite t k =>
      match line i t !! k with
      | Some c => pc' = WWrite t (S k) ∧ cout s' = cout s ++ [(i, c)]
      | None => pc' = WSleep
      end
    | WSleep => pc' = WLock
    | WWait | WDone => False
    end.
Proof.
  intros Hi H. pose proof (lookup_lt_Some _ _ _ Hi).
  unfold step, worker_step in H. rewrite Hi in H.
  destruct pc; repeat case_match; simplify_eq/=;
    rewrite list_lookup_insert_eq by done; eauto 8.
Qed.


Lemma observe_silent l s h :
  pushed_by l s = [] → popped_by l s = [] → executed_by l s = [] →
  observe l s h = h.
Proof.
  intros E1 E2 E3. unfold observe. rewrite E1, E2, E3, !app_nil_r.
  by destruct h.
Qed.

Lemma run_step l sched s s1 h :
  step l s = Some s1 → run (l :: sched) s h = run sched s1 (observe l s h).
Proof. intros H. simpl. by rewrite H. Qed.

(** One transition of the worker the goal runs next. *)
Ltac lookup_here :=
  repeat (rewrite list_lookup_insert_eq by (rewrite ?length_insert; done));
  repeat match goal with
         | H : ?ws !! ?i = Some _ |- context [?ws !! ?i] => rewrite H
         end.

Ltac wstep :=
  lazymatch goal with
  | |- context [run (LWorker ?i :: ?sched) ?s ?h] =>
    let E := fresh "E" in
    eassert (E : step (LWorker i) s = Some _) by
      (unfold step, worker_step; simpl; lookup_here; simpl; reflexivity);
    rewrite (run_step _ sched s _ h E); clear E
  end.

Ltac wdone :=
  unfold run, observe, pushed_by, popped_by, executed_by; simpl;
  lookup_here; simpl; rewrite ?app_nil_r.

(** C3. The contract of the dequeue step (lines 52-59).  In a reachable
    state, a worker that holds [queue_mutex_] and evaluates the predicate
    of [cv_.wait] has one
    of three ways to go, decided by the queue and the flag.  Queue empty
    and flag false: it releases the mutex and blocks on [cv_], and cannot
    move by itself.  Queue empty and flag true: it returns from [Worker],
    releasing the mutex.  Queue non-empty: it removes the front element and
    keeps it as its task.  A worker returns only from line 56 with the flag
    true and the queue empty; a worker unblocked from [cv_] takes the mutex
    and evaluates the predicate again; and while it holds the mutex no
    other thread changes the queue or the flag. *)
Theorem take_or_wait_contract sched s h i :
  run sched init no_history = Some (s, h) →
  workers_ s !! i = Some WPred →
  match tasks_ s with
  | [] =>
    if stop_ s
    then ∃ s', run [LWorker i; LWorker i] s h = Some (s', h)
               ∧ workers_ s' !! i = Some WDone
               ∧ queue_mutex_ s' = None ∧ tasks_ s' = []
    else ∃ s', run [LWorker i] s h = Some (s', h)
               ∧ workers_ s' !! i = Some WWait
               ∧ queue_mutex_ s' = None ∧ tasks_ s' = [] ∧ stop_ s' = false
               ∧ step (LWorker i) s' = None
  | t :: q =>
    ∃ s', run (replicate 4 (LWorker i)) s h
          = Some (s', mkHistory (pushed h) (popped h ++ [(i, t)]) (executed h))
          ∧ workers_ s' !! i = Some (WUnlock t)
          ∧ tasks_ s' = q ∧ queue_mutex_ s' = queue_mutex_ s
  end
  ∧ (∀ s0 s1 pc, workers_ s0 !! i = Some pc →
       step (LWorker i) s0 = Some s1 →
       workers_ s1 !! i = Some WDone
       ↔ pc = WExitTest ∧ stop_ s0 = true ∧ tasks_ s0 = [])
  ∧ (∀ s0, workers_ s0 !! i = Some WWoken → queue_mutex_ s0 = None →
       ∃ s1, step (LWorker i) s0 = Some s1 ∧ workers_ s1 !! i = Some WPred
             ∧ queue_mutex_ s1 = Some (Worker i))
  ∧ (∀ l s', step l s = Some s' → l ≠ LWorker i →
       tasks_ s' = tasks_ s ∧ stop_ s' = stop_ s
       ∧ workers_ s' !! i = Some WPred).
Proof.
  intros Hrun Hi. destruct (reachable_Inv _ _ _ Hrun) as [HI _]. clear Hrun.
  pose proof (lookup_lt_Some _ _ _ Hi) as Hlt. split_and!.
  - destruct s as [ws q m st cm out o], h as [pu po ex]; simpl in Hi, Hlt.
    unfold tasks_, stop_ at 1. destruct q as [|t q], st; simpl replicate.
    + eexists. do 2 wstep. wdone. split; [reflexivity|]. simpl. by lookup_here.
    + eexists. wstep. wdone. split; [reflexivity|]. simpl. lookup_here.
      split_and!; try done.
      unfold worker_step. simpl. by lookup_here.
    + eexists. do 4 wstep. wdone. split; [reflexivity|]. simpl. by lookup_here.
    + eexists. do 4 wstep. wdone. split; [reflexivity|]. simpl. by lookup_here.
  - intros s0 s1 pc H0 Hstep.
    destruct (worker_step_pc _ _ _ _ H0 Hstep) as (pc' & -> & Hpc').
    destruct pc; repeat case_match; unpack; simplify_eq/=;
      split; intros; unpack; simplify_eq/=; try done.
    all: try (by destruct (tasks_ s0)).
  - intros s0 H0 Hm. eexists. unfold step, worker_step. rewrite H0, Hm.
    split; [done|]. simpl.
    by rewrite list_lookup_insert_eq by eauto using lookup_lt_Some.
  - intros l s' Hstep Hl. by eapply lock_excludes.
Qed.

(** ** The order of the queue *)

Lemma single_writer (es : list (nat * string)) :
  Forall (λ e, e.1 < 1) es → es = (λ t, (0, t)) <$> es.*2.
Proof.
  induction 1 as [|[i t] es Hi _ IH]; [done|].
  rewrite !fmap_cons, <- IH. simpl in *. f_equal. f_equal. lia.
Qed.

(** C4. FIFO dequeue order.  Along every run, whatever the number of
    workers, the strings removed from the queue (in the order of their
    removal, by whichever worker) followed by the strings still in the
    queue are the strings pushed so far, which are a prefix of [msgs]: the
    queue is emptied in the order of submission.  With exactly one worker,
    the tasks are also executed in that order, and when the destructor has
    returned the output is the lines of [msgs] in the order of [msgs]. *)
Theorem fifo_dequeue sched s h :
  run sched init no_history = Some (s, h) →
  (popped h).*2 ++ tasks_ s = pushed h
  ∧ pushed h ++ to_push (owner s) = msgs
  ∧ (num_workers = 1 →
     (executed h).*2 ++ (workers_ s ≫= in_flight) = (popped h).*2
     ∧ (owner s = MDone →
        executed h = (λ t, (0, t)) <$> msgs
        ∧ cout s = render ((λ t, (0, t)) <$> msgs))).
Proof.
  intros Hrun. destruct (reachable_Inv _ _ _ Hrun) as [HI HH].
  split_and!; [apply HH | symmetry; apply HH |].
  intros H1.
  assert (length (workers_ s) ≤ 1) as Hlen.
  { rewrite (inv_len _ HI), <- H1. apply HI. }
  split; [symmetry; by apply HH|]. intros Hd.
  destruct (single_worker_order s h HI HH Hd ltac:(lia)) as (Hex & Hco).
  assert (executed h = (λ t, (0, t)) <$> msgs) as Hall.
  { rewrite <- Hex. apply single_writer. rewrite <- H1. apply HH. }
  by rewrite Hco, Hall.
Qed.

(** ** [Enqueue] *)

(** The state and the history after the four statements of [Enqueue]. *)
Lemma Enqueue_run s h t todo k s' h' :
  owner s = MEnqLock t todo → run (Enqueue k) s h = Some (s', h') →
  queue_mutex_ s = None
  ∧ h' = mkHistory (pushed h ++ [t]) (popped h) (executed h)
  ∧ ∃ ws', s' = mkWorld ws' (tasks_ s ++ [t]) None (stop_ s)
                        (cout_mutex s) (cout s) (next_call todo)
           ∧ if existsb is_wait (workers_ s)
             then workers_ s !! k = Some WWait
                  ∧ ws' = <[k:=WWoken]> (workers_ s)
             else ws' = workers_ s.
Proof.
  intros Ho Hrun.
  destruct s as [ws q m st cm out o], h as [pu po ex]; simpl in *. subst o.
  unfold owner_step, observe, pushed_by in Hrun; simpl in Hrun.
  destruct m; [done|]. simpl in Hrun.
  unfold notify_one in Hrun; simpl in Hrun.
  destruct (existsb is_wait ws).
  - destruct (ws !! k) as [[]|] eqn:Hk; simplify_eq/=.
    rewrite !app_nil_r. eauto 6.
  - simplify_eq/=. rewrite !app_nil_r. eauto 6.
Qed.

Lemma Enqueue_possible s h t todo :
  owner s = MEnqLock t todo → queue_mutex_ s = None →
  ∃ k s' h', run (Enqueue k) s h = Some (s', h').
Proof.
  intros Ho Hm.
  destruct s as [ws q m st cm out o]; simpl in *. subst o m.
  destruct (existsb is_wait ws) eqn:He.
  - destruct (waiter_lookup _ He) as [k Hk]. exists k.
    unfold owner_step, notify_one; simpl. rewrite He, Hk. simpl. eauto.
  - exists 0. unfold owner_step, notify_one; simpl. rewrite He. simpl. eauto.
Qed.

(** The thread that holds [queue_mutex_] can move. *)
Lemma holder_moves s i :
  Inv s → queue_mutex_ s = Some (Worker i) → is_Some (step (LWorker i) s).
Proof.
  intros HI Hm. destruct (inv_lock_w' _ HI i Hm) as (pc & Hi & Hh).
  pose proof (inv_local _ HI _ _ Hi) as Hloc.
  unfold step, worker_step. rewrite Hi.
  destruct pc; simplify_eq/=; repeat case_match; unpack; simplify_eq/=; eauto.
Qed.

(** C5. The contract of [Enqueue].  Let the owner be at the call
    [Enqueue(t)], in any state of the pool.  If [queue_mutex_] is free the
    four statements of [Enqueue] run to the end with no other thread
    moving.  Whenever they have run, [t] is the last element of the queue
    behind the elements that were there, the owner is at its next
    statement with nothing returned to it, the mutex is free again, and no
    thread has been added to those blocked on [cv_].  In a reachable state
    the only thing that can delay [Enqueue] is a worker inside its
    critical section, and that worker can move. *)
Theorem Enqueue_contract s h t todo :
  owner s = MEnqLock t todo →
  (queue_mutex_ s = None → ∃ k s' h', run (Enqueue k) s h = Some (s', h'))
  ∧ (∀ k s' h', run (Enqueue k) s h = Some (s', h') →
       tasks_ s' = tasks_ s ++ [t]
       ∧ pushed h' = pushed h ++ [t]
       ∧ owner s' = next_call todo
       ∧ queue_mutex_ s' = None
       ∧ (∀ i, workers_ s' !! i = Some WWait → workers_ s !! i = Some WWait))
  ∧ (∀ sched h0 th, run sched init no_history = Some (s, h0) →
       queue_mutex_ s = Some th →
       ∃ i, th = Worker i ∧ is_Some (step (LWorker i) s)).
Proof.
  intros Ho. split_and!.
  - intros Hm. by eapply Enqueue_possible.
  - intros k s' h' Hrun.
    destruct (Enqueue_run _ _ _ _ _ _ _ Ho Hrun) as (_ & -> & ws' & -> & Hws).
    split_and!; try done. simpl. intros i Hi.
    destruct (existsb is_wait (workers_ s)); [|by subst].
    destruct Hws as [Hk ->].
    apply list_lookup_insert_Some in Hi as [(? & ? & ?) | (? & ?)]; by simplify_eq.
  - intros sched h0 th Hrun. destruct (reachable_Inv _ _ _ Hrun) as [HI _].
    destruct th as [|i]; intros Hm.
    + apply (inv_lock_o _ HI) in Hm. by rewrite Ho in Hm.
    + exists i. split; [done|]. by apply holder_moves.
Qed.

(** C10. The frame of [Enqueue].  Whenever the four statements of
    [Enqueue(t)] have run, in any state of the pool, the queue is one
    element longer, every element that was in the queue is at the position
    it had, the flag is what it was, and [workers_] holds the same threads:
    each is at the control point it had, except that one that was blocked
    on [cv_] may have been unblocked.  The output and its mutex are
    untouched. *)
Theorem Enqueue_frame s h t todo k s' h' :
  owner s = MEnqLock t todo →
  run (Enqueue k) s h = Some (s', h') →
  length (tasks_ s') = S (length (tasks_ s))
  ∧ (∀ j x, tasks_ s !! j = Some x → tasks_ s' !! j = Some x)
  ∧ stop_ s' = stop_ s
  ∧ length (workers_ s') = length (workers_ s)
  ∧ (∀ i pc, workers_ s !! i = Some pc →
       workers_ s' !! i = Some pc
       ∨ pc = WWait ∧ workers_ s' !! i = Some WWoken)
  ∧ cout s' = cout s ∧ cout_mutex s' = cout_mutex s.
Proof.
  intros Ho Hrun.
  destruct (Enqueue_run _ _ _ _ _ _ _ Ho Hrun) as (_ & -> & ws' & -> & Hws).
  simpl. split_and!; try done.
  - rewrite length_app. simpl. lia.
  - intros j x Hj. by apply lookup_app_l_Some.
  - destruct (existsb is_wait (workers_ s)); [|by subst].
    destruct Hws as [_ ->]. by rewrite length_insert.
  - intros i pc Hi.
    destruct (existsb is_wait (workers_ s)); [|subst; by left].
    destruct Hws as [Hk ->]. destruct (decide (k = i)) as [->|].
    + right. rewrite list_lookup_insert_eq by eauto using lookup_lt_Some.
      split; congruence.
    + left. by rewrite list_lookup_insert_ne.
Qed.

(** ** The output *)

Lemma text_render es : text (render es) = es ≫= λ e, line e.1 e.2.
Proof.
  unfold text, render. induction es as [|e es IH]; [done|].
  rewrite !bind_cons, fmap_app, IH. f_equal. apply text_wline.
Qed.

(** C6. Output non-interleaving.  In every reachable state the stream is
    the whole lines of the executions completed so far, one after the
    other, followed by the characters of at most one unfinished line: the
    prefix written by the worker that holds [cout_mutex].  Every character
    of a line has the same writer.  At most one worker is inside the
    output statement; it holds [cout_mutex] and does not hold
    [queue_mutex_], the two mutexes being separate fields of the state. *)
Theorem output_not_interleaved sched s h :
  run sched init no_history = Some (s, h) →
  cout s = render (executed h) ++ pending s
  ∧ (∀ e, Forall (λ x, x.1 = e.1) (wline e) ∧ text (wline e) = line e.1 e.2)
  ∧ (cout_mutex s = None → pending s = [])
  ∧ (∀ i t k, workers_ s !! i = Some (WWrite t k) →
       cout_mutex s = Some i
       ∧ queue_mutex_ s ≠ Some (Worker i)
       ∧ pending s = take k (wline (i, t)))
  ∧ (∀ i j t k t' k', workers_ s !! i = Some (WWrite t k) →
       workers_ s !! j = Some (WWrite t' k') → i = j).
Proof.
  intros Hrun. destruct (reachable_Inv _ _ _ Hrun) as [HI HH].
  split_and!.
  - apply HH.
  - intros e. split; [apply wline_writer | apply text_wline].
  - unfold pending. by intros ->.
  - intros i t k Hi. pose proof (inv_cout _ HI _ _ _ Hi) as Hc.
    split_and!; [done| |].
    + intros Hm. destruct (inv_lock_w' _ HI i Hm) as (pc & Hpc & Hh).
      by simplify_eq.
    + unfold pending. by rewrite Hc, Hi.
  - intros i j t k t' k' Hi Hj.
    pose proof (inv_cout _ HI _ _ _ Hi). pose proof (inv_cout _ HI _ _ _ Hj).
    congruence.
Qed.

(** ** What each worker has taken and printed *)

Lemma by_worker_app i a b :
  by_worker i (a ++ b) = by_worker i a ++ by_worker i b.
Proof. apply filter_app. Qed.

Lemma by_worker_here i t : by_worker i [(i, t)] = [(i, t)].
Proof. unfold by_worker. by rewrite filter_cons_True. Qed.

Lemma by_worker_other i j t : j ≠ i → by_worker i [(j, t)] = [].
Proof. intros. unfold by_worker. by rewrite filter_cons_False. Qed.

Lemma order_step l s s' h :
  Inv s → step l s = Some s' →
  (∀ i, by_worker i (popped h) = by_worker i (executed h) ++ flight s i) →
  ∀ i, by_worker i (popped (observe l s h))
       = by_worker i (executed (observe l s h)) ++ flight s' i.
Proof.
  intros [Hw Hw' Ho Hc Hc' Hloc Hstop Hnw Hlen Hle Hj] H IHo i.
  specialize (IHo i).
  destruct s as [ws q m st cm out o], h as [pu po ex].
  unfold flight, observe, popped_by, executed_by in *; simpl in *.
  step_inv H.
  all: reduce_obs.
  all: try match goal with
           | |- context [<[?k:=_]> _ !! ?j] =>
             destruct (decide (k = j)) as [->|];
             [ rewrite list_lookup_insert_eq by eauto using lookup_lt_Some
             | rewrite list_lookup_insert_ne by done ]
           end.
  all: rewrite ?by_worker_app, ?by_worker_here, ?by_worker_other by done.
  all: repeat match goal with
              | H : ?x = _, H' : context [match ?x with _ => _ end] |- _ =>
                rewrite H in H'
              end; simpl in *.
  all: rewrite ?app_nil_r.
  all: try done.
  all: try (rewrite IHo, <- ?app_assoc; simpl; rewrite ?app_nil_r; done).
  all: lookups; bounds; simplify_eq/=;
    rewrite ?length_app, ?length_insert, ?length_fmap in *; simpl in *;
    try lia.
  all: rewrite ?by_worker_app, ?by_worker_here, ?by_worker_other by done.
  all: rewrite ?app_nil_r.
  all: try done.
  all: try (rewrite IHo, <- ?app_assoc; simpl; rewrite ?app_nil_r; done).
  all: try (by destruct x).
  all: try (by destruct w).
  all: saturate; simpl in *; unpack; simplify_eq/=.
  all: try (rewrite IHo, <- ?app_assoc; simpl; rewrite ?app_nil_r; done).
  all: match goal with
       | |- context [by_worker ?i [(?j, _)]] =>
         destruct (decide (j = i)) as [->|];
         [ lia | rewrite by_worker_other, ?app_nil_r by done ]
       end.
  all: by rewrite IHo, ?app_nil_r.
Qed.

Lemma run_order sched s h s' h' :
  Inv s → HInv h s →
  (∀ i, by_worker i (popped h) = by_worker i (executed h) ++ flight s i) →
  run sched s h = Some (s', h') →
  ∀ i, by_worker i (popped h') = by_worker i (executed h') ++ flight s' i.
Proof.
  revert s h. induction sched as [|l sched IH]; intros s h HI HH Ho Hrun.
  - by simplify_eq/=.
  - simpl in Hrun. destruct (step l s) as [s1|] eqn:Hstep; [|done].
    eapply IH; [| | |done]; eauto using Inv_step, HInv_step, order_step.
Qed.

(** ** The lines of the stream *)

Lemma whole_lines_record l rest :
  newline ∉ l → whole_lines (l ++ newline :: rest) = l :: whole_lines rest.
Proof.
  induction l as [|c l IH]; intros Hn.
  - cbn [app whole_lines]. by rewrite Ascii.eqb_refl.
  - apply not_elem_of_cons in Hn as [Hc Hl].
    cbn [app whole_lines]. rewrite IH by done.
    by rewrite (proj2 (Ascii.eqb_neq _ _)) by done.
Qed.

Lemma whole_lines_records (fmt : nat * string → list ascii) es rest :
  Forall (λ e, newline ∉ fmt e) es →
  whole_lines ((es ≫= λ e, fmt e ++ [newline]) ++ rest)
  = (fmt <$> es) ++ whole_lines rest.
Proof.
  induction 1 as [|e es He _ IH]; [done|].
  rewrite bind_cons, <- !app_assoc. cbn [app].
  rewrite whole_lines_record by done. by rewrite IH.
Qed.

Lemma record_one_line i t :
  one_line (show_id i) → one_line t →
  newline ∉ list_ascii_of_string (worker_identifier i +:+ ": " +:+ t).
Proof.
  unfold one_line, worker_identifier. intros Hi Ht.
  rewrite !list_ascii_of_string_app, !not_elem_of_app.
  split_and!; [compute_done | done | compute_done | done].
Qed.

Lemma executed_of_msgs s h e :
  HInv h s → e ∈ executed h → e.2 ∈ msgs.
Proof.
  intros HH He. rewrite (hinv_msgs _ _ HH), <- (hinv_fifo _ _ HH).
  apply elem_of_app. left. apply elem_of_app. left.
  rewrite (hinv_conserve _ _ HH). apply elem_of_app. left.
  by apply list_elem_of_fmap_2.
Qed.

(** C7. Output format.  Every task a worker has taken from the queue
    produces one record on the stream, written by that worker: the
    identifier of the worker (["Thread "] and the thread id), a colon, a
    space, the payload and one end of line.  In every reachable state:
    the text on the stream is the records of the completed executions,
    one after the other, followed by the characters of the record being
    written, if any; for each worker, the tasks it has removed from the
    queue are, in the order of removal, those whose record it has
    completed, followed by the one it is holding, if any, so no record is
    without its task, no task has two records, and a task that has been
    removed has its record or is on its way to it; and the run can be
    continued until the destructor returns.  When the destructor has
    returned, no record is unfinished and the records of each worker are
    those of the tasks it has removed; in a pool with a worker they are,
    with multiplicity, those of the submitted strings.  If neither a
    payload nor the text of the id of a worker contains an end of line,
    the whole lines on the stream are the records without their end of
    line: one line for each execution, of the form identifier, colon,
    space, payload.  A payload with an end of line in it is written as it
    is, and its record is more than one line. *)
Theorem output_format sched s h :
  run sched init no_history = Some (s, h) →
  text (cout s)
  = (executed h ≫= λ e,
       list_ascii_of_string (worker_identifier e.1 +:+ ": " +:+ e.2)
         ++ [newline])
    ++ text (pending s)
  ∧ (∀ i, by_worker i (popped h) = by_worker i (executed h) ++ flight s i)
  ∧ (∃ sched' s' h', run sched' s h = Some (s', h') ∧ owner s' = MDone)
  ∧ (owner s = MDone →
     pending s = []
     ∧ (∀ i, by_worker i (executed h) = by_worker i (popped h))
     ∧ (0 < num_workers → (executed h).*2 ≡ₚ msgs))
  ∧ ((∀ i, i < num_workers → one_line (show_id i)) →
     Forall one_line msgs →
     whole_lines (text (cout s))
     = ((λ e, list_ascii_of_string (worker_identifier e.1 +:+ ": " +:+ e.2))
          <$> executed h)
       ++ whole_lines (text (pending s))).
Proof.
  intros Hrun. destruct (reachable_Inv _ _ _ Hrun) as [HI HH].
  assert (text (cout s)
          = (executed h ≫= λ e,
               list_ascii_of_string (worker_identifier e.1 +:+ ": " +:+ e.2)
                 ++ [newline])
            ++ text (pending s)) as Htext.
  { rewrite (hinv_cout _ _ HH). unfold text at 1.
    rewrite fmap_app. f_equal. fold (text (render (executed h))).
    rewrite text_render. apply list_bind_ext; [|done].
    intros e. apply line_format. }
  assert (∀ i, by_worker i (popped h)
               = by_worker i (executed h) ++ flight s i) as Hord.
  { eapply run_order; [apply Inv_init|apply HInv_init| |done]. done. }
  split_and!; [done|done| | |].
  - destruct (can_finish s h HI) as (sched' & s' & h' & ? & ? & _); eauto.
  - intros Hd.
    destruct (returned s h HI HH Hd)
      as (_ & Hall & _ & Hc & _ & Hpu & Hperm & _ & Hq).
    split_and!.
    + unfold pending. by rewrite Hc.
    + intros i. rewrite Hord. unfold flight.
      destruct (workers_ s !! i) as [pc|] eqn:Hi; [|by rewrite app_nil_r].
      by rewrite (Hall _ _ Hi), app_nil_r.
    + intros Hn. rewrite <- Hperm, <- Hpu, <- (hinv_fifo _ _ HH), (Hq Hn).
      by rewrite app_nil_r.
  - intros Hid Hmsgs. rewrite Htext.
    apply (whole_lines_records
             (λ e, list_ascii_of_string
                     (worker_identifier e.1 +:+ ": " +:+ e.2))).
    apply Forall_forall. intros e He. apply record_one_line.
    + apply Hid. pose proof (hinv_ids _ _ HH) as Hlt.
      rewrite Forall_forall in Hlt. by apply Hlt.
    + rewrite Forall_forall in Hmsgs. apply Hmsgs.
      by eapply executed_of_msgs.
Qed.

(** ** The edge cases *)

(** Nothing is executed that was not pushed. *)
Lemma nothing_pushed s h :
  Inv s → HInv h s → pushed h = [] →
  popped h = [] ∧ executed h = [] ∧ tasks_ s = [] ∧ cout s = [].
Proof.
  intros HI HH Hpu. pose proof (hinv_fifo _ _ HH) as Hf. rewrite Hpu in Hf.
  apply app_eq_nil in Hf as [Hpo Hq]. apply fmap_nil_inv in Hpo.
  pose proof (hinv_conserve _ _ HH) as Hp. rewrite Hpo in Hp.
  symmetry in Hp. apply Permutation_nil_r, app_eq_nil in Hp as [Hex Hfl].
  apply fmap_nil_inv in Hex.
  split_and!; try done.
  rewrite (hinv_cout _ _ HH), Hex. unfold pending.
  destruct (cout_mutex s) as [i|] eqn:Hc; [|done].
  destruct (inv_cout' _ HI i Hc) as (t & k & Hi).
  assert (t ∈ workers_ s ≫= in_flight) as Hin
    by (eapply in_flight_elem; [done|]; simpl; apply list_elem_of_here).
  rewrite Hfl in Hin. by apply not_elem_of_nil in Hin.
Qed.

(** C8. The zero-task scenario.  With no call of [Enqueue] and any number
    of workers: nothing is ever executed or written; a run has at most
    [6 + 12 * num_workers] transitions apart from those that spurious
    wake-ups cause (6 for each); as long as the destructor has not returned
    some thread can move, so no interleaving ends in a deadlock, and the
    run can be continued until the destructor returns, still with no
    execution.  After the broadcast of line 34 no worker is blocked on
    [cv_], and the queue is empty whenever the flag is true, which is the
    exit condition of line 56. *)
Theorem zero_tasks sched s h :
  msgs = [] →
  run sched init no_history = Some (s, h) →
  executed h = [] ∧ cout s = [] ∧ tasks_ s = []
  ∧ length sched ≤ 6 + 12 * num_workers + 6 * spurious_count sched
  ∧ (owner s ≠ MDone → ∃ l, enabled l s)
  ∧ (∃ sched' s' h', run sched' s h = Some (s', h') ∧ owner s' = MDone
                     ∧ executed h' = [] ∧ spurious_count sched' = 0)
  ∧ (joining (owner s) = true → ∀ i, workers_ s !! i ≠ Some WWait).
Proof.
  intros Hm Hrun. destruct (reachable_Inv _ _ _ Hrun) as [HI HH].
  assert (∀ s h, Inv s → HInv h s → pushed h = []) as Hpu.
  { intros s0 h0 _ HH0. pose proof (hinv_msgs _ _ HH0) as E.
    rewrite Hm in E. symmetry in E. by apply app_eq_nil in E as [? _]. }
  destruct (nothing_pushed s h HI HH (Hpu _ _ HI HH)) as (_ & ? & ? & ?).
  split_and!; try done.
  - pose proof (run_cost _ _ _ _ _ Inv_init Hrun) as Hc.
    unfold cost at 2 in Hc. simpl in Hc. unfold calls_cost in Hc.
    rewrite Hm in Hc. simpl in Hc. lia.
  - by apply progress.
  - destruct (can_finish s h HI) as (sched' & s' & h' & Hrun' & Hd & Hsp & _).
    exists sched', s', h'. split_and!; try done.
    destruct (run_Inv _ _ _ _ _ HI HH Hrun') as [HI' HH'].
    by destruct (nothing_pushed s' h' HI' HH' (Hpu _ _ HI' HH')) as (_ & ? & _).
  - apply HI.
Qed.

(** The owner running alone in a pool without workers. *)
Lemma alone_run todo q h :
  ∃ s' h', run (replicate (4 * length todo + 5) (LOwner 0))
               (mkWorld [] q None false None [] (next_call todo)) h
           = Some (s', h')
           ∧ pushed h' = pushed h ++ todo ∧ popped h' = popped h
           ∧ executed h' = executed h
           ∧ owner s' = MDone ∧ tasks_ s' = q ++ todo ∧ workers_ s' = []
           ∧ cout s' = [].
Proof.
  revert q h. induction todo as [|t todo IH]; intros q h.
  - eexists _, _. split; [reflexivity|]. simpl. by rewrite !app_nil_r.
  - replace (4 * length (t :: todo) + 5) with (4 + (4 * length todo + 5))
      by (simpl; lia).
    rewrite replicate_add, run_app. simpl replicate.
    destruct (IH (q ++ [t])
                 (mkHistory (pushed h ++ [t]) (popped h) (executed h)))
      as (s' & h' & Hrun & Hpu & ? & ? & ? & Hq & ? & ?).
    exists s', h'. simpl in *.
    rewrite <- !(assoc (++)) in Hpu, Hq. split_and!; try done.
    unfold observe; simpl. by rewrite !app_nil_r.
Qed.

(** C9. The zero-worker edge case.  The constructor takes
    [num_workers = 0] without a check.  Then [workers_] stays empty and
    nothing is ever removed from the queue, executed or written, in any
    run; and the owner running alone goes through the constructor, every
    call of [Enqueue] and the destructor without being blocked anywhere:
    the destructor returns, with every submitted string still in the
    queue. *)
Theorem zero_workers :
  num_workers = 0 →
  (∀ sched s h, run sched init no_history = Some (s, h) →
     workers_ s = [] ∧ popped h = [] ∧ executed h = [] ∧ cout s = []
     ∧ tasks_ s = pushed h)
  ∧ (∃ s h, run (replicate (6 + 4 * length msgs) (LOwner 0)) init no_history
            = Some (s, h)
            ∧ owner s = MDone ∧ workers_ s = []
            ∧ pushed h = msgs ∧ tasks_ s = msgs
            ∧ executed h = [] ∧ cout s = []).
Proof.
  intros H0. split.
  - intros sched s h Hrun. destruct (reachable_Inv _ _ _ Hrun) as [HI HH].
    assert (workers_ s = []) as Hws.
    { apply length_zero_iff_nil. pose proof (inv_len _ HI).
      pose proof (inv_len_le _ HI). lia. }
    pose proof (hinv_conserve _ _ HH) as Hp. rewrite Hws in Hp. simpl in Hp.
    pose proof (hinv_cout _ _ HH) as Hco.
    assert (pending s = []) as Hpe.
    { unfold pending. destruct (cout_mutex s); [|done]. by rewrite Hws. }
    pose proof (hinv_order _ _ HH) as Ho. rewrite Hws in Ho.
    specialize (Ho ltac:(simpl; lia)). simpl in Ho. rewrite app_nil_r in Ho.
    pose proof (hinv_fifo _ _ HH) as Hf.
    assert (executed h = []) as Hex.
    { destruct (executed h) as [|e ex] eqn:E; [done|].
      pose proof (hinv_ids _ _ HH) as Hid. rewrite E in Hid.
      apply Forall_cons in Hid as [? _]. lia. }
    rewrite Hex in *. simpl in *. apply fmap_nil_inv in Ho.
    rewrite Ho in Hf. simpl in Hf.
    split_and!; try done. by rewrite Hco, Hpe.
  - destruct (alone_run msgs [] no_history)
      as (s & h & Hrun & ? & ? & ? & ? & ? & ? & ?).
    exists s, h. split_and!; try done.
    replace (6 + 4 * length msgs) with (1 + (4 * length msgs + 5)) by lia.
    rewrite replicate_add, run_app. simpl replicate.
    unfold run at 2, step, owner_step, init. simpl. rewrite H0. simpl.
    unfold observe; simpl. apply Hrun.
Qed.

(** * More of the pool *)

(** ** Mutual exclusion and the discipline of the shared state *)

(** X1. Mutual exclusion on [queue_mutex_].  In every reachable state the
    thread recorded as the holder of [queue_mutex_] is the one thread that
    is between an acquisition and the release of the mutex: the owner
    inside the destructor or [Enqueue], or a worker inside lines 52-60.
    No two threads are inside these sections at once. *)
Theorem queue_mutex_exclusive sched s h :
  run sched init no_history = Some (s, h) →
  (∀ th, in_section s th ↔ queue_mutex_ s = Some th)
  ∧ (∀ th1 th2, in_section s th1 → in_section s th2 → th1 = th2).
Proof.
  intros Hrun. destruct (reachable_Inv _ _ _ Hrun) as [HI _].
  assert (∀ th, in_section s th ↔ queue_mutex_ s = Some th) as Hiff.
  { intros [|i]; simpl.
    - symmetry. apply HI.
    - split.
      + intros (pc & Hi & Hh). by eapply inv_lock_w.
      + by apply inv_lock_w'. }
  split; [done|]. intros th1 th2 H1%Hiff H2%Hiff. congruence.
Qed.

(** X2. The shared state is touched under its mutex only.  A transition
    from a reachable state leaves the queue as it is, or appends one
    string at its back (the owner), or removes its front (a worker): there
    is no other access.  A transition that changes the queue or [stop_] is
    one of the thread that holds [queue_mutex_], before and after; a
    transition that writes to the stream is one of the worker that holds
    [cout_mutex], and appends one character. *)
Theorem shared_state_guarded sched s h l s' :
  run sched init no_history = Some (s, h) →
  step l s = Some s' →
  (tasks_ s' = tasks_ s
   ∨ (∃ t, thread_of l = Owner ∧ tasks_ s' = tasks_ s ++ [t])
   ∨ (∃ x i, l = LWorker i ∧ tasks_ s = x :: tasks_ s'))
  ∧ (tasks_ s' ≠ tasks_ s ∨ stop_ s' ≠ stop_ s →
     queue_mutex_ s = Some (thread_of l)
     ∧ queue_mutex_ s' = Some (thread_of l))
  ∧ (cout s' = cout s
     ∨ ∃ i c, l = LWorker i ∧ cout s' = cout s ++ [(i, c)]
              ∧ cout_mutex s = Some i ∧ cout_mutex s' = Some i).
Proof.
  intros Hrun H. destruct (reachable_Inv _ _ _ Hrun) as [HI _]. clear Hrun.
  destruct HI as [Hw Hw' Ho Hc Hc' Hloc Hstop Hnw Hlen Hle Hj].
  destruct s as [ws q m st cm out o]; simpl in *.
  step_inv H.
  all: saturate; simpl in *; unpack; simplify_eq/=.
  all: split_and!; eauto 8.
  all: try (intros [?|?]; done).
Qed.

(** ** The flag *)

Lemma stop_step l s s' : step l s = Some s' → stop_ s = true → stop_ s' = true.
Proof.
  intros H Hs. destruct s as [ws q m st cm out o]; simpl in *. subst st.
  by step_inv H.
Qed.

Lemma shrink_step l s s' :
  Inv s → stop_ s = true → step l s = Some s' →
  tasks_ s' `suffix_of` tasks_ s ∧ pushed_by l s = [].
Proof.
  intros [Hw Hw' Ho Hc Hc' Hloc Hstop Hnw Hlen Hle Hj] Hs H.
  destruct s as [ws q m st cm out o]; simpl in *. subst st.
  unfold pushed_by.
  step_inv H; simpl; split; try done.
  all: by apply suffix_cons_r.
Qed.

(** X3. The flag is set once.  From a reachable state in which [stop_]
    is true, it stays true whatever the threads do, nothing is pushed any
    more, and the queue only loses elements at its front: what is in the
    queue later is a suffix of what was in it. *)
Theorem stop_is_final sched0 sched s h s' h' :
  run sched0 init no_history = Some (s, h) →
  run sched s h = Some (s', h') →
  stop_ s = true →
  stop_ s' = true
  ∧ pushed h' = pushed h
  ∧ tasks_ s' `suffix_of` tasks_ s.
Proof.
  intros Hrun0. destruct (reachable_Inv _ _ _ Hrun0) as [HI _]. clear Hrun0.
  revert s h HI. induction sched as [|l sched IH]; intros s h HI Hrun Hs.
  - by simplify_eq/=.
  - simpl in Hrun. destruct (step l s) as [s1|] eqn:Hstep; [|done].
    destruct (shrink_step _ _ _ HI Hs Hstep) as [Hsuf Hpu].
    destruct (IH _ _ (Inv_step _ _ _ HI Hstep) Hrun (stop_step _ _ _ Hstep Hs))
      as (? & Hp & ?).
    split_and!; [done| |by etrans].
    rewrite Hp. simpl. by rewrite Hpu, app_nil_r.
Qed.

(** ** The queue is never read when it is empty *)

(** X4. [front] and [pop] are defined where they are called.  In every
    reachable state a worker at line 58 finds the queue non-empty, can
    move, and has then the task at the front as its [task].  A worker at
    line 59 finds the queue non-empty and can move; [pop] removes the
    front element, whose string line 58 has moved out, and leaves the
    elements behind it as they are; the worker keeps its [task]. *)
Theorem front_and_pop_defined sched s h i :
  run sched init no_history = Some (s, h) →
  (workers_ s !! i = Some WFront →
     ∃ t q s', tasks_ s = t :: q
               ∧ step (LWorker i) s = Some s'
               ∧ workers_ s' !! i = Some (WPop t))
  ∧ (∀ t, workers_ s !! i = Some (WPop t) →
       ∃ x q s', tasks_ s = x :: q
                 ∧ step (LWorker i) s = Some s'
                 ∧ tasks_ s' = q
                 ∧ workers_ s' !! i = Some (WUnlock t)).
Proof.
  intros Hrun. destruct (reachable_Inv _ _ _ Hrun) as [HI _]. split.
  - intros Hi. pose proof (inv_local _ HI _ _ Hi) as Hloc. simpl in Hloc.
    pose proof (lookup_lt_Some _ _ _ Hi) as Hlt.
    destruct (tasks_ s) as [|t q] eqn:Hq; [done|]. exists t, q.
    eexists. split; [done|]. unfold step, worker_step. rewrite Hi, Hq.
    split; [done|]. simpl. by apply list_lookup_insert_eq.
  - intros t Hi. destruct (inv_local _ HI _ _ Hi) as [q Hq].
    pose proof (lookup_lt_Some _ _ _ Hi) as Hlt.
    exists t, q. eexists. split; [done|].
    unfold step, worker_step. rewrite Hi, Hq.
    split_and!; [done|done|]. simpl. by apply list_lookup_insert_eq.
Qed.

(** ** No missed wake-up *)

Lemma awake_wake pc : awake pc = true → awake (wake pc) = true.
Proof. by destruct pc. Qed.

Lemma no_waiter ws :
  existsb is_wait ws = false → ∀ i, ws !! i ≠ Some WWait.
Proof.
  intros He i Hi. apply not_true_iff_false in He. apply He.
  apply existsb_exists. exists WWait. split; [|done].
  apply list_elem_of_In. by eapply list_elem_of_lookup_2.
Qed.

Lemma waiters_zero ws : (∀ i, ws !! i ≠ Some WWait) → waiters ws = 0.
Proof.
  unfold waiters. induction ws as [|pc ws IH]; intros Hn; [done|].
  simpl. rewrite IH by (intros i; apply (Hn (S i))).
  destruct pc; try done. by destruct (Hn 0).
Qed.

Lemma served_step l s s' :
  Inv s → 0 < num_workers → (tasks_ s ≠ [] → served s) →
  step l s = Some s' → tasks_ s' ≠ [] → served s'.
Proof.
  intros [Hw Hw' Ho Hc Hc' Hloc Hstop Hnw Hlen Hle Hj] Hn Hserved H Hq.
  destruct s as [ws q m st cm out o]; unfold served in *; simpl in *.
  step_inv H.
  all: saturate; simpl in *; unpack; simplify_eq/=.
  all: try (left; reflexivity).
  (* the thread that has moved is awake *)
  all: try (right; eexists _, _; split;
            [ apply list_lookup_insert_eq; eauto using lookup_lt_Some
            | reflexivity ]; fail).
  all: try (right; eexists _, _; split;
            [ by apply list_lookup_middle | reflexivity ]; fail).
  (* the workers are where they were *)
  all: rewrite ?joining_next in *.
  all: try match type of Hserved with
           | ?P → _ =>
             let Hp := fresh in
             assert (Hp : P) by done; specialize (Hserved Hp); clear Hp
           end.
  all: try (destruct Hserved as [?|(i0 & pc0 & Hi0 & Ha0)]; [done|];
            right; exists i0; first
              [ by exists pc0
              | exists (wake pc0); rewrite list_lookup_fmap, Hi0;
                split; [done | by apply awake_wake] ]).
  (* [notify_one] with no thread blocked: the first worker is awake *)
  destruct (ws !! 0) as [pc|] eqn:H00;
    [|apply lookup_ge_None in H00; lia].
  right. exists 0, pc. split; [done|].
  specialize (Hloc _ _ H00). destruct pc; simpl in *; try done.
  - by destruct (no_waiter _ H0 0).
  - by destruct Hloc.
Qed.

Lemma run_served sched s h s' h' :
  Inv s → 0 < num_workers → (tasks_ s ≠ [] → served s) →
  run sched s h = Some (s', h') → tasks_ s' ≠ [] → served s'.
Proof.
  intros HI Hn. revert s h HI.
  induction sched as [|l sched IH]; intros s h HI Hs Hrun.
  - by simplify_eq/=.
  - simpl in Hrun. destruct (step l s) as [s1|] eqn:Hstep; [|done].
    eapply IH; [by eapply Inv_step | | done].
    by eapply served_step.
Qed.

(** X5. No missed wake-up.  In a pool with at least one worker, whenever
    the queue is non-empty in a reachable state, either the owner is
    between the push of line 41 and the [notify_one] of line 43, or some
    worker is neither blocked on [cv_] nor returned, and will evaluate the
    predicate of line 54 without any notification.  After the
    [notify_all] of line 34 no worker is blocked on [cv_], and a worker
    that is blocked while [stop_] is true is between the owner's lines 32
    and 34. *)
Theorem no_missed_wakeup sched s h :
  0 < num_workers →
  run sched init no_history = Some (s, h) →
  (tasks_ s ≠ [] → served s)
  ∧ (joining (owner s) = true → waiters (workers_ s) = 0)
  ∧ (∀ i, workers_ s !! i = Some WWait → stop_ s = true →
       owner s = MDtorUnlock ∨ owner s = MDtorNotify).
Proof.
  intros Hn Hrun. destruct (reachable_Inv _ _ _ Hrun) as [HI _]. split_and!.
  - eapply run_served; [apply Inv_init | done | done | done].
  - intros Hj. apply waiters_zero. intros i. by apply (inv_nowait _ HI).
  - intros i Hi Hs. rewrite (inv_stop _ HI) in Hs.
    pose proof (inv_nowait _ HI) as Hnw.
    destruct (owner s); simpl in *; try done; eauto.
    all: by destruct (Hnw eq_refl i).
Qed.

(** ** Spurious wake-ups *)

(** X6. A spurious wake-up is harmless.  A worker blocked on [cv_] that
    is woken without a notification, with [queue_mutex_] free, takes the
    mutex and evaluates the predicate of line 54 again.  If the queue is
    empty and the flag false, it blocks again, and the state and the
    history are exactly what they were.  Otherwise it goes on to line 56
    holding the mutex, with the queue, the flag and the output as they
    were. *)
Theorem spurious_wakeup_harmless s h i :
  workers_ s !! i = Some WWait → queue_mutex_ s = None →
  (stop_ s = false → tasks_ s = [] →
     run [LSpurious i; LWorker i; LWorker i] s h = Some (s, h))
  ∧ (stop_ s = true ∨ tasks_ s ≠ [] →
     ∃ s', run [LSpurious i; LWorker i; LWorker i] s h = Some (s', h)
           ∧ workers_ s' !! i = Some WExitTest
           ∧ queue_mutex_ s' = Some (Worker i)
           ∧ tasks_ s' = tasks_ s ∧ stop_ s' = stop_ s
           ∧ cout s' = cout s).
Proof.
  intros Hi Hm. pose proof (lookup_lt_Some _ _ _ Hi) as Hlt.
  destruct s as [ws q m st cm out o], h as [pu po ex]; simpl in *. subst m.
  split.
  - intros -> ->.
    unfold spurious, worker_step, observe; simpl. rewrite Hi; simpl.
    rewrite list_lookup_insert_eq by done; simpl.
    rewrite list_lookup_insert_eq by (by rewrite length_insert); simpl.
    unfold set_pc, set_mutex, set_workers; simpl.
    rewrite !list_insert_insert_eq, list_insert_id by done.
    by rewrite !app_nil_r.
  - intros Hor.
    assert (st || negb (empty q) = true) as Hp.
    { destruct Hor as [->|?]; [done|]. destruct q; [done|].
      by rewrite orb_true_r. }
    unfold spurious, worker_step, observe; simpl. rewrite Hi; simpl.
    rewrite list_lookup_insert_eq by done; simpl.
    rewrite list_lookup_insert_eq by (by rewrite length_insert); simpl.
    rewrite Hp; simpl. rewrite !app_nil_r. eexists. split; [done|].
    unfold set_pc, set_mutex, set_workers; simpl.
    rewrite list_lookup_insert_eq by (by rewrite !length_insert). done.
Qed.

(** ** The critical sections are short *)

Lemma release_within n s h i pc :
  Inv s → workers_ s !! i = Some pc → holds_lock pc = true →
  lock_rank pc ≤ n →
  ∃ m s' h', 0 < m ≤ n ∧ run (replicate m (LWorker i)) s h = Some (s', h')
             ∧ queue_mutex_ s' = None.
Proof.
  revert s h pc. induction n as [|n IH]; intros s h pc HI Hi Hh Hr.
  { destruct pc; simpl in *; done || lia. }
  destruct (holder_moves s i HI (inv_lock_w _ HI _ _ Hi Hh)) as [s1 Hs1].
  destruct (worker_step_pc _ _ _ _ Hi Hs1) as (pc' & Hi' & Hpc).
  pose proof (Inv_step _ _ _ HI Hs1) as HI1.
  assert (queue_mutex_ s1 = None
          ∨ holds_lock pc' = true ∧ lock_rank pc' ≤ n) as [Hfree|[Hh' Hr']].
  { destruct pc; simpl in *; try done;
      repeat case_match; unpack; simplify_eq/=; eauto with lia. }
  - exists 1, s1, (observe (LWorker i) s h). split; [lia|].
    cbn [replicate]. by rewrite (run_step _ _ _ _ _ Hs1).
  - destruct (IH s1 (observe (LWorker i) s h) pc' HI1 Hi' Hh' Hr')
      as (m & s' & h' & Hm & Hrun & Hfree).
    exists (S m), s', h'. split; [lia|].
    cbn [replicate]. by rewrite (run_step _ _ _ _ _ Hs1).
Qed.

(** X7. The critical sections are short and never block.  In a reachable
    state, a worker that holds [queue_mutex_] releases it after at most
    five statements of its own (lines 54-60), with no other thread
    moving: inside the section it waits for no other mutex and does not
    sleep.  The owner releases it after at most two (lines 32-33 and
    41-42).  A worker in the sleep of line 66 holds neither mutex. *)
Theorem critical_section_bounded sched s h :
  run sched init no_history = Some (s, h) →
  (∀ i, queue_mutex_ s = Some (Worker i) →
     ∃ m s' h', 0 < m ≤ 5
                ∧ run (replicate m (LWorker i)) s h = Some (s', h')
                ∧ queue_mutex_ s' = None)
  ∧ (queue_mutex_ s = Some Owner →
     ∃ m s' h', 0 < m ≤ 2
                ∧ run (replicate m (LOwner 0)) s h = Some (s', h')
                ∧ queue_mutex_ s' = None)
  ∧ (∀ i, workers_ s !! i = Some WSleep →
       queue_mutex_ s ≠ Some (Worker i) ∧ cout_mutex s ≠ Some i).
Proof.
  intros Hrun. destruct (reachable_Inv _ _ _ Hrun) as [HI _]. split_and!.
  - intros i Hm. destruct (inv_lock_w' _ HI i Hm) as (pc & Hi & Hh).
    apply (release_within 5 s h i pc); [done..|]. destruct pc; simpl; lia.
  - intros Hm. apply (inv_lock_o _ HI) in Hm.
    destruct s as [ws q m st cm out o]; simpl in *.
    destruct o; simpl in *; try done.
    + exists 2. eexists _, _. split; [lia|]. unfold owner_step; simpl. done.
    + exists 1. eexists _, _. split; [lia|]. unfold owner_step; simpl. done.
    + exists 2. eexists _, _. split; [lia|]. unfold owner_step; simpl. done.
    + exists 1. eexists _, _. split; [lia|]. unfold owner_step; simpl. done.
  - intros i Hi. split; intros Hm.
    + destruct (inv_lock_w' _ HI i Hm) as (pc & Hi' & Hh).
      rewrite Hi in Hi'. by simplify_eq.
    + destruct (inv_cout' _ HI i Hm) as (t & k & Hi'). congruence.
Qed.

(** ** The output statement *)

Lemma write_rest n s h i t k :
  workers_ s !! i = Some (WWrite t k) → length (line i t) - k = n →
  run (replicate (S n) (LWorker i)) s h
  = Some (mkWorld (<[i:=WSleep]> (workers_ s)) (tasks_ s) (queue_mutex_ s)
                  (stop_ s) None (cout s ++ drop k (wline (i, t))) (owner s),
          mkHistory (pushed h) (popped h) (executed h ++ [(i, t)])).
Proof.
  revert s h k. induction n as [|n IH]; intros s h k Hi Hn.
  - assert (line i t !! k = None) as Hk by (apply lookup_ge_None; lia).
    destruct s as [ws q m st cm out o], h as [pu po ex]; simpl in *.
    unfold worker_step, observe, executed_by; simpl. rewrite Hi, Hk; simpl.
    rewrite drop_ge by (rewrite wline_length; simpl; lia).
    by rewrite !app_nil_r.
  - destruct (lookup_lt_is_Some_2 (line i t) k) as [c Hk]; [lia|].
    assert (step (LWorker i) s
            = Some (set_pc i (WWrite t (S k)) (put_char i c s))) as Hstep.
    { unfold step, worker_step. by rewrite Hi, Hk. }
    cbn [replicate]. rewrite (run_step _ _ _ _ _ Hstep).
    rewrite (IH _ _ (S k)); [|by apply list_lookup_insert_eq, lookup_lt_Some
                                  with (WWrite t k) | lia].
    destruct s as [ws q m st cm out o], h as [pu po ex]; simpl in Hi; simpl.
    unfold observe, executed_by; simpl. rewrite Hi, Hk; simpl.
    rewrite list_insert_insert_eq, !app_nil_r, <- app_assoc. simpl.
    by rewrite <- (drop_S _ _ _ (wline_lookup i t k c Hk)).
Qed.

Lemma write_some k s h i t j :
  workers_ s !! i = Some (WWrite t j) → j + k ≤ length (line i t) →
  run (replicate k (LWorker i)) s h
  = Some (mkWorld (<[i:=WWrite t (j + k)]> (workers_ s)) (tasks_ s)
                  (queue_mutex_ s) (stop_ s) (cout_mutex s)
                  (cout s ++ take k (drop j (wline (i, t)))) (owner s), h).
Proof.
  revert s h j. induction k as [|k IH]; intros s h j Hi Hle.
  - destruct s as [ws q m st cm out o]; simpl in Hi; simpl.
    by rewrite Nat.add_0_r, list_insert_id, app_nil_r.
  - destruct (lookup_lt_is_Some_2 (line i t) j) as [c Hj]; [lia|].
    assert (step (LWorker i) s
            = Some (set_pc i (WWrite t (S j)) (put_char i c s))) as Hstep.
    { unfold step, worker_step. by rewrite Hi, Hj. }
    cbn [replicate]. rewrite (run_step _ _ _ _ _ Hstep).
    rewrite (IH _ _ (S j)); [|by apply list_lookup_insert_eq, lookup_lt_Some
                                  with (WWrite t j) | lia].
    rewrite (drop_S _ _ _ (wline_lookup i t j c Hj)).
    destruct s as [ws q m st cm out o], h as [pu po ex]; simpl in Hi; simpl.
    unfold observe, executed_by; simpl. rewrite Hi, Hj; simpl.
    rewrite list_insert_insert_eq, !app_nil_r, <- app_assoc. simpl.
    by rewrite Nat.add_succ_r.
Qed.

(** X8. The output statement runs to its end (lines 63-66).  A worker
    that has a task to print and finds [cout_mutex] free takes it and
    writes the characters of its line one after the other: after [k]
    characters the stream is what it was followed by the first [k]
    characters of the line, and the worker holds [cout_mutex].  After the
    whole line the mutex is free, the execution is recorded once, and,
    the sleep over, the worker is back at line 52.  Nothing else in the
    state has changed: it needs no other thread and no other lock to get
    there. *)
Theorem output_statement_completes s h i t :
  workers_ s !! i = Some (WCoutLock t) → cout_mutex s = None →
  (∀ k, k ≤ length (line i t) →
     run (replicate (S k) (LWorker i)) s h
     = Some (mkWorld (<[i:=WWrite t k]> (workers_ s)) (tasks_ s)
                     (queue_mutex_ s) (stop_ s) (Some i)
                     (cout s ++ take k (wline (i, t))) (owner s), h))
  ∧ run (replicate (3 + length (line i t)) (LWorker i)) s h
    = Some (mkWorld (<[i:=WLock]> (workers_ s)) (tasks_ s)
                    (queue_mutex_ s) (stop_ s) None
                    (cout s ++ wline (i, t)) (owner s),
            mkHistory (pushed h) (popped h) (executed h ++ [(i, t)])).
Proof.
  intros Hi Hm. pose proof (lookup_lt_Some _ _ _ Hi) as Hlt.
  assert (step (LWorker i) s
          = Some (set_pc i (WWrite t 0) (set_cout_mutex (Some i) s)))
    as Hstep.
  { unfold step, worker_step. by rewrite Hi, Hm. }
  assert (observe (LWorker i) s h = h) as Hobs.
  { destruct s as [ws q m st cm out o], h as [pu po ex]; simpl in Hi.
    unfold observe, executed_by; simpl. rewrite Hi; simpl.
    by rewrite !app_nil_r. }
  split.
  - intros k Hk. cbn [replicate].
    rewrite (run_step _ _ _ _ _ Hstep), Hobs.
    rewrite (write_some k _ _ i t 0);
      [|by apply list_lookup_insert_eq | lia].
    destruct s as [ws q m st cm out o]; simpl.
    by rewrite list_insert_insert_eq.
  - change (3 + length (line i t)) with (S (S (S (length (line i t))))).
    change (replicate (S ?n) ?x) with (x :: replicate n x) at 1.
    rewrite (run_step _ _ _ _ _ Hstep), Hobs.
    replace (S (S (length (line i t)))) with (S (length (line i t)) + 1)
      by lia.
    rewrite replicate_add, run_app.
    rewrite (write_rest (length (line i t)) _ _ i t 0);
      [|by apply list_lookup_insert_eq | lia].
    clear Hstep Hobs.
    destruct s as [ws q m st cm out o], h as [pu po ex]; simpl in *.
    unfold worker_step, observe, executed_by; simpl.
    rewrite list_insert_insert_eq, list_lookup_insert_eq by done. simpl.
    unfold set_pc, set_workers; simpl.
    by rewrite ?list_insert_insert_eq, !app_nil_r.
Qed.

(** ** Notifications *)

Lemma waiters_insert ws k :
  ws !! k = Some WWait → waiters (<[k:=WWoken]> ws) = pred (waiters ws).
Proof.
  intros Hk. unfold waiters.
  pose proof (sum_insert (λ pc, if is_wait pc then 1 else 0)
                ws k WWait WWoken Hk) as Hs.
  simpl in Hs. lia.
Qed.

Lemma waiters_wake ws : waiters (wake <$> ws) = 0.
Proof.
  apply waiters_zero. intros i Hi. rewrite list_lookup_fmap in Hi.
  by destruct (ws !! i) as [[]|].
Qed.

Lemma existsb_waiters ws :
  if existsb is_wait ws then 0 < waiters ws else waiters ws = 0.
Proof.
  unfold waiters. induction ws as [|pc ws IH]; [done|].
  simpl. destruct pc; simpl; try done.
  destruct (existsb is_wait ws); lia.
Qed.

(** X9. [notify_one] wakes exactly one thread.  Whenever the four
    statements of [Enqueue] have run, the number of threads blocked on
    [cv_] is one less than it was, or zero if none was blocked: in the
    first case the thread unblocked is one that was blocked and no other
    thread has moved; in the second the notification is lost and
    [workers_] is what it was. *)
Theorem Enqueue_wakes_one s h t todo k s' h' :
  owner s = MEnqLock t todo →
  run (Enqueue k) s h = Some (s', h') →
  waiters (workers_ s') = pred (waiters (workers_ s))
  ∧ (waiters (workers_ s) = 0 → workers_ s' = workers_ s)
  ∧ (0 < waiters (workers_ s) →
     workers_ s !! k = Some WWait
     ∧ workers_ s' = <[k:=WWoken]> (workers_ s)).
Proof.
  intros Ho Hrun.
  destruct (Enqueue_run _ _ _ _ _ _ _ Ho Hrun) as (_ & _ & ws' & -> & Hws).
  simpl. pose proof (existsb_waiters (workers_ s)) as He.
  destruct (existsb is_wait (workers_ s)).
  - destruct Hws as [Hk ->]. split_and!; [by apply waiters_insert|lia|done].
  - subst ws'. rewrite He. split_and!; [done|done|lia].
Qed.

(** ** The destructor *)

(** X10. The destructor up to the broadcast (lines 31-34).  With
    [queue_mutex_] free, the four statements run with no other thread
    moving.  Afterwards the flag is set, every thread that was blocked on
    [cv_] has been unblocked and no thread is blocked, the other workers
    are where they were, the mutex is free, and the queue and the output
    are untouched: the destructor discards no task. *)
Theorem destructor_signals s h :
  owner s = MDtorLock → queue_mutex_ s = None →
  run (replicate 4 (LOwner 0)) s h
  = Some (mkWorld (wake <$> workers_ s) (tasks_ s) None true
                  (cout_mutex s) (cout s) (MJoin 0), h)
  ∧ waiters (wake <$> workers_ s) = 0
  ∧ (∀ i pc, workers_ s !! i = Some pc →
       (wake <$> workers_ s) !! i
       = Some (if is_wait pc then WWoken else pc)).
Proof.
  intros Ho Hm. split_and!.
  - destruct s as [ws q m st cm out o], h as [pu po ex]; simpl in *.
    subst o m. unfold owner_step, observe; simpl. by rewrite !app_nil_r.
  - apply waiters_wake.
  - intros i pc Hi. rewrite list_lookup_fmap, Hi. by destruct pc.
Qed.

Lemma join_run n s h i :
  owner s = MJoin i → length (workers_ s) - i = n →
  (∀ j pc, i ≤ j → workers_ s !! j = Some pc → pc = WDone) →
  run (replicate (S n) (LOwner 0)) s h = Some (set_owner MDone s, h).
Proof.
  revert s h i. induction n as [|n IH]; intros s h i Ho Hn Hall.
  - assert (workers_ s !! i = None) as Hi by (apply lookup_ge_None; lia).
    destruct s as [ws q m st cm out o], h as [pu po ex]; simpl in *.
    subst o. unfold owner_step, observe; simpl. rewrite Hi.
    by rewrite !app_nil_r.
  - destruct (lookup_lt_is_Some_2 (workers_ s) i) as [pc Hi]; [lia|].
    pose proof (Hall i pc (le_n _) Hi) as ->.
    assert (step (LOwner 0) s = Some (set_owner (MJoin (S i)) s)) as Hstep.
    { unfold step, owner_step. by rewrite Ho, Hi. }
    change (replicate (S ?n) ?x) with (x :: replicate n x) at 1.
    rewrite (run_step _ _ _ _ _ Hstep).
    rewrite (IH _ _ (S i)); [| done | simpl; lia
                             | intros j pc ?; apply Hall; lia].
    destruct s as [ws q m st cm out o], h as [pu po ex]; simpl in *.
    subst o. unfold observe; simpl. by rewrite !app_nil_r.
Qed.

(** X11. The joins (line 35).  Once every worker has returned, the
    destructor joins them in the order of [workers_], one statement for
    each, and returns; it changes nothing but its own control point.  In
    a reachable state in which the owner is at the join of [workers_[i]],
    the workers before [i] have returned. *)
Theorem destructor_joins s h :
  owner s = MJoin 0 →
  (∀ j pc, workers_ s !! j = Some pc → pc = WDone) →
  run (replicate (S (length (workers_ s))) (LOwner 0)) s h
  = Some (set_owner MDone s, h)
  ∧ (∀ sched s1 h1 i j pc, run sched init no_history = Some (s1, h1) →
       owner s1 = MJoin i → j < i → workers_ s1 !! j = Some pc →
       pc = WDone).
Proof.
  intros Ho Hall. split.
  - apply (join_run _ s h 0); [done|lia|]. intros j pc _. apply Hall.
  - intros sched s1 h1 i j pc Hrun Ho1 Hlt Hj.
    destruct (reachable_Inv _ _ _ Hrun) as [HI _].
    apply (inv_joined _ HI j pc); [|done]. by rewrite Ho1.
Qed.

(** ** The threads of the pool *)

(** X12. Threads are started by the constructor only, and a thread that
    has returned does nothing more.  A transition leaves the number of
    threads in [workers_] as it is, unless it is the statement of line 24
    in the constructor, which adds one thread at the end, about to run
    [Worker] from its first line.  A worker that has returned from
    [Worker] stays returned, and no transition is one of its own. *)
Theorem threads_persist l s s' :
  step l s = Some s' →
  (workers_ s' = workers_ s ++ [WLock]
     ∧ thread_of l = Owner ∧ (∃ i, owner s = MCtor i ∧ i < num_workers)
   ∨ length (workers_ s') = length (workers_ s)
     ∧ ∀ i, owner s ≠ MCtor i ∨ num_workers ≤ i ∨ thread_of l ≠ Owner)
  ∧ (∀ i, workers_ s !! i = Some WDone →
       workers_ s' !! i = Some WDone ∧ thread_of l ≠ Worker i).
Proof.
  intros H. destruct s as [ws q m st cm out o]; simpl in *.
  step_inv H.
  all: split; [|intros; split; goal_lookups; fin].
  all: try (right; split; [goal_lookups; fin|]; intros; unpack; eauto; fail).
  all: unpack.
  - left. eauto.
  - right. split; [done|]. intros i0.
    destruct (decide (i = i0)) as [->|]; [right; left; lia|left; congruence].
Qed.

(** ** Each worker prints what it has taken, in that order *)

(** X13. Each worker prints what it has taken, in the order it took it.
    In every reachable state, with any number of workers, the tasks a
    worker has removed from the queue are, in the order of removal, the
    tasks it has finished printing followed by the one it is holding, if
    any; it holds at most one.  So the tasks one worker executes form a
    subsequence of [msgs]: a worker never prints a later submission
    before an earlier one.  When the destructor has returned, every
    worker has printed all it has taken. *)
Theorem per_worker_order sched s h i :
  run sched init no_history = Some (s, h) →
  by_worker i (popped h) = by_worker i (executed h) ++ flight s i
  ∧ length (flight s i) ≤ 1
  ∧ (by_worker i (executed h)).*2 `sublist_of` msgs
  ∧ (owner s = MDone → by_worker i (executed h) = by_worker i (popped h)).
Proof.
  intros Hrun. destruct (reachable_Inv _ _ _ Hrun) as [HI HH].
  assert (by_worker i (popped h) = by_worker i (executed h) ++ flight s i)
    as Heq.
  { eapply run_order; [apply Inv_init|apply HInv_init| |done]. done. }
  split_and!; [done| | |].
  - unfold flight. destruct (workers_ s !! i) as [[]|]; simpl; lia.
  - rewrite (hinv_msgs _ _ HH), <- (hinv_fifo _ _ HH), <- app_assoc.
    apply sublist_inserts_r.
    trans ((by_worker i (popped h)).*2).
    + rewrite Heq, fmap_app. by apply sublist_inserts_r.
    + apply fmap_sublist, sublist_filter.
  - intros Ho. rewrite Heq. unfold flight.
    destruct (workers_ s !! i) as [pc|] eqn:Hi; [|by rewrite app_nil_r].
    rewrite (inv_joined _ HI i pc); [by rewrite app_nil_r| |done].
    by rewrite Ho.
Qed.

(** ** The constructor *)

Lemma ctor_run n i h :
  num_workers - i = n → i ≤ num_workers →
  run (replicate (S n) (LOwner 0))
      (mkWorld (replicate i WLock) [] None false None [] (MCtor i)) h
  = Some (mkWorld (replicate num_workers WLock) [] None false None []
                  (next_call msgs), h).
Proof.
  revert i h. induction n as [|n IH]; intros i h Hn Hle.
  - assert (i = num_workers) as -> by lia.
    destruct h as [pu po ex]. simpl. unfold owner_step, observe; simpl.
    rewrite Nat.ltb_irrefl. by rewrite !app_nil_r.
  - change (replicate (S ?n) ?x) with (x :: replicate n x) at 1.
    assert ((i <? num_workers) = true) as Hlt by (apply Nat.ltb_lt; lia).
    rewrite (run_step _ _ _
               (mkWorld (replicate (S i) WLock) [] None false None []
                        (MCtor (S i))));
      [|unfold step, owner_step; simpl; rewrite Hlt;
        unfold set_owner, set_workers; simpl;
        by rewrite <- replicate_S_end].
    rewrite IH by lia. destruct h as [pu po ex].
    unfold observe; simpl. by rewrite !app_nil_r.
Qed.

Lemma bind_in_flight_nil ws :
  ws ≫= in_flight = [] → ∀ i pc, ws !! i = Some pc → in_flight pc = [].
Proof.
  intros Hnil i pc Hi. destruct (in_flight pc) as [|t l] eqn:E; [done|].
  assert (t ∈ ws ≫= in_flight) as Hin.
  { eapply in_flight_elem; [done|]. rewrite E. apply list_elem_of_here. }
  rewrite Hnil in Hin. by apply elem_of_nil in Hin.
Qed.

(** X14. The constructor (lines 20-27).  Running alone, the constructor
    starts [num_workers] threads, one statement for each, and returns
    without blocking; each thread is about to run [Worker] from its first
    line.  In every reachable state the number of threads in [workers_]
    is the number the constructor has started, at most [num_workers], and
    exactly [num_workers] once the constructor has returned.  A worker
    may run while the constructor is still starting the others, but as
    long as the constructor has not returned nothing has been pushed,
    taken or written, the flag is false, and no worker has returned. *)
Theorem constructor_spawns sched s h :
  run sched init no_history = Some (s, h) →
  run (replicate (S num_workers) (LOwner 0)) init no_history
  = Some (mkWorld (replicate num_workers WLock) [] None false None []
                  (next_call msgs), no_history)
  ∧ length (workers_ s) = spawned (owner s)
  ∧ length (workers_ s) ≤ num_workers
  ∧ (∀ i, owner s = MCtor i →
       tasks_ s = [] ∧ stop_ s = false ∧ cout s = [] ∧ cout_mutex s = None
       ∧ h = no_history
       ∧ ∀ j pc, workers_ s !! j = Some pc →
           in_flight pc = [] ∧ pc ≠ WDone).
Proof.
  intros Hrun. destruct (reachable_Inv _ _ _ Hrun) as [HI HH].
  split_and!.
  - apply (ctor_run num_workers 0); lia.
  - apply HI.
  - rewrite (inv_len _ HI). apply HI.
  - intros i Ho.
    pose proof (hinv_msgs _ _ HH) as Hm. rewrite Ho in Hm. simpl in Hm.
    assert (pushed h = []) as Hpu.
    { apply (f_equal length) in Hm. rewrite length_app in Hm.
      apply length_zero_iff_nil. lia. }
    pose proof (hinv_fifo _ _ HH) as Hf. rewrite Hpu in Hf.
    apply app_eq_nil in Hf as [Hpo Hq].
    pose proof (hinv_conserve _ _ HH) as Hc. rewrite Hpo in Hc.
    symmetry in Hc. apply Permutation_nil_r in Hc.
    apply app_eq_nil in Hc as [Hex Hfl].
    apply fmap_nil_inv in Hpo, Hex.
    pose proof (inv_stop _ HI) as Hst. rewrite Ho in Hst. simpl in Hst.
    assert (∀ j pc, workers_ s !! j = Some pc →
              in_flight pc = [] ∧ pc ≠ WDone) as Hws.
    { intros j pc Hj. split; [by eapply bind_in_flight_nil|].
      intros ->. pose proof (inv_local _ HI _ _ Hj) as Hl. simpl in Hl.
      destruct Hl as [Hl _]. congruence. }
    assert (cout_mutex s = None) as Hcm.
    { destruct (cout_mutex s) as [j|] eqn:E; [|done].
      destruct (inv_cout' _ HI j E) as (t & k & Hj).
      by destruct (Hws _ _ Hj). }
    split_and!; try done.
    + rewrite (hinv_cout _ _ HH), Hex. unfold pending. by rewrite Hcm.
    + destruct h; simpl in *; by subst.
Qed.

(** ** Conservation of the tasks *)

Lemma in_flight_length ws : length (ws ≫= in_flight) ≤ length ws.
Proof.
  induction ws as [|pc ws IH]; [done|].
  rewrite bind_cons, length_app. simpl. destruct pc; simpl; lia.
Qed.

(** X15. No task is lost or duplicated at any time.  In every reachable
    state the strings pushed so far are, with multiplicity, those whose
    line is complete, those a worker holds (at most one for each worker)
    and those still in the queue; and the number of all these and of the
    calls of [Enqueue] still to come is the number of messages. *)
Theorem tasks_conserved sched s h :
  run sched init no_history = Some (s, h) →
  pushed h ≡ₚ (executed h).*2 ++ (workers_ s ≫= in_flight) ++ tasks_ s
  ∧ length (workers_ s ≫= in_flight) ≤ num_workers
  ∧ length (executed h) + length (workers_ s ≫= in_flight)
    + length (tasks_ s) + length (to_push (owner s)) = length msgs
  ∧ length (executed h) ≤ length (popped h) ≤ length (pushed h).
Proof.
  intros Hrun. destruct (reachable_Inv _ _ _ Hrun) as [HI HH].
  pose proof (hinv_fifo _ _ HH) as Hf.
  pose proof (hinv_conserve _ _ HH) as Hc.
  pose proof (hinv_msgs _ _ HH) as Hm.
  assert (pushed h
          ≡ₚ (executed h).*2 ++ (workers_ s ≫= in_flight) ++ tasks_ s)
    as Hperm by (by rewrite <- Hf, Hc, <- app_assoc).
  pose proof (in_flight_length (workers_ s)) as Hfl.
  rewrite (inv_len _ HI) in Hfl. pose proof (inv_len_le _ HI) as Hle.
  apply (f_equal length) in Hm, Hf.
  apply Permutation_length in Hperm, Hc.
  rewrite !length_app, !length_fmap in *.
  split_and!; [by rewrite <- (hinv_fifo _ _ HH), (hinv_conserve _ _ HH),
                 <- app_assoc|lia..].
Qed.
End Proofs.

(** * The scenarios of the specification, run *)

(** [main]: two workers, five messages, the threads taking turns. *)
Lemma exactly_once_witness :
  0 < @num_workers main_cfg
  ∧ @run main_cfg main_sched init no_history = Some main_final
  ∧ owner main_final.1 = MDone
  ∧ (executed main_final.2).*2 ≡ₚ @msgs main_cfg
  ∧ length (executed main_final.2) = 5.
Proof.
  assert (H1 : 0 < @num_workers main_cfg) by (simpl; lia).
  assert (H2 : @run main_cfg main_sched init no_history = Some main_final)
    by (vm_compute; reflexivity).
  assert (H3 : owner main_final.1 = MDone) by reflexivity.
  destruct (@exactly_once main_cfg main_sched main_final.1 main_final.2 H1 H2)
    as (_ & _ & _ & H).
  destruct (H H3) as (_ & Hp & Hl & _).
  split_and!; [exact H1 | exact H2 | exact H3 | exact Hp | exact Hl].
Defined.

(** [main] with the owner running ahead: the five messages are in the queue
    when [stop_] is set, and are executed before the destructor returns. *)
Lemma drain_and_join_witness :
  0 < @num_workers main_cfg
  ∧ @run main_cfg rush_sched1 init no_history = Some rush_stop
  ∧ owner rush_stop.1 = MDtorUnlock
  ∧ @run main_cfg rush_sched2 rush_stop.1 rush_stop.2 = Some rush_final
  ∧ owner rush_final.1 = MDone
  ∧ tasks_ rush_stop.1 = five_messages
  ∧ (∃ ex, executed rush_final.2 = executed rush_stop.2 ++ ex
           ∧ ex.*2 ≡ₚ (workers_ rush_stop.1 ≫= in_flight) ++ tasks_ rush_stop.1)
  ∧ (∀ i pc, workers_ rush_final.1 !! i = Some pc → pc = WDone).
Proof.
  assert (H1 : 0 < @num_workers main_cfg) by (simpl; lia).
  assert (H2 : @run main_cfg rush_sched1 init no_history = Some rush_stop)
    by (vm_compute; reflexivity).
  assert (H3 : owner rush_stop.1 = MDtorUnlock) by reflexivity.
  assert (H4 : @run main_cfg rush_sched2 rush_stop.1 rush_stop.2 = Some rush_final)
    by (vm_compute; reflexivity).
  assert (H5 : owner rush_final.1 = MDone) by reflexivity.
  destruct (@drain_and_join main_cfg rush_sched1 rush_sched2
              rush_stop.1 rush_stop.2 rush_final.1 rush_final.2 H1 H2 H3 H4 H5)
    as (_ & Hex & _ & _ & Hall & _).
  split_and!; [exact H1 | exact H2 | exact H3 | exact H4 | exact H5
              | reflexivity | exact Hex | exact Hall].
Defined.

(** A worker of [main] at the predicate of [cv_.wait] with ["Message 1"] in
    the queue: it takes the message. *)
Lemma take_or_wait_contract_witness :
  @run main_cfg pred_sched init no_history = Some pred_state
  ∧ workers_ pred_state.1 !! 0 = Some WPred
  ∧ tasks_ pred_state.1 = ["Message 1"%string]
  ∧ ∃ s', @run main_cfg (replicate 4 (LWorker 0)) pred_state.1 pred_state.2
          = Some (s', mkHistory (pushed pred_state.2)
                                (popped pred_state.2 ++ [(0, "Message 1"%string)])
                                (executed pred_state.2))
          ∧ workers_ s' !! 0 = Some (WUnlock "Message 1")
          ∧ tasks_ s' = [] ∧ queue_mutex_ s' = queue_mutex_ pred_state.1.
Proof.
  assert (H1 : @run main_cfg pred_sched init no_history = Some pred_state)
    by (vm_compute; reflexivity).
  assert (H2 : workers_ pred_state.1 !! 0 = Some WPred) by reflexivity.
  destruct (@take_or_wait_contract main_cfg pred_sched
              pred_state.1 pred_state.2 0 H1 H2) as (H & _).
  split_and!; [exact H1 | exact H2 | reflexivity | exact H].
Defined.

(** One worker, five messages: executed in the order of submission. *)
Lemma fifo_dequeue_witness :
  @run solo_cfg solo_sched init no_history = Some solo_final
  ∧ @num_workers solo_cfg = 1
  ∧ owner solo_final.1 = MDone
  ∧ (popped solo_final.2).*2 ++ tasks_ solo_final.1 = pushed solo_final.2
  ∧ executed solo_final.2 = (λ t, (0, t)) <$> five_messages.
Proof.
  assert (H1 : @run solo_cfg solo_sched init no_history = Some solo_final)
    by (vm_compute; reflexivity).
  assert (H2 : @num_workers solo_cfg = 1) by reflexivity.
  assert (H3 : owner solo_final.1 = MDone) by reflexivity.
  destruct (@fifo_dequeue solo_cfg solo_sched solo_final.1 solo_final.2 H1)
    as (Hf & _ & Hone).
  destruct (Hone H2) as (_ & Hd). destruct (Hd H3) as (Hex & _).
  split_and!; [exact H1 | exact H2 | exact H3 | exact Hf | exact Hex].
Defined.

(** [main] at its first call of [Enqueue]: the call runs to its end, and
    one of the two blocked workers is unblocked. *)
Lemma Enqueue_contract_witness :
  owner enq_state.1
  = MEnqLock "Message 1" ["Message 2"; "Message 3"; "Message 4"; "Message 5"]
  ∧ queue_mutex_ enq_state.1 = None
  ∧ (∃ k s' h', @run main_cfg (Enqueue k) enq_state.1 enq_state.2 = Some (s', h'))
  ∧ (∀ k s' h', @run main_cfg (Enqueue k) enq_state.1 enq_state.2 = Some (s', h') →
       tasks_ s' = tasks_ enq_state.1 ++ ["Message 1"%string]
       ∧ owner s' = MEnqLock "Message 2" ["Message 3"; "Message 4"; "Message 5"]).
Proof.
  assert (H1 : owner enq_state.1
    = MEnqLock "Message 1" ["Message 2"; "Message 3"; "Message 4"; "Message 5"])
    by reflexivity.
  assert (H2 : queue_mutex_ enq_state.1 = None) by reflexivity.
  destruct (@Enqueue_contract main_cfg enq_state.1 enq_state.2 _ _ H1)
    as (Hex & Hall & _).
  split_and!; [exact H1 | exact H2 | exact (Hex H2) |].
  intros k s' h' Hrun. destruct (Hall k s' h' Hrun) as (Hq & _ & Ho & _).
  split; [exact Hq | exact Ho].
Defined.

(** The same call, with worker 0 the one [notify_one] unblocks. *)
Lemma Enqueue_frame_witness :
  owner enq_state.1
  = MEnqLock "Message 1" ["Message 2"; "Message 3"; "Message 4"; "Message 5"]
  ∧ ∃ s' h', @run main_cfg (Enqueue 0) enq_state.1 enq_state.2 = Some (s', h')
    ∧ length (tasks_ s') = S (length (tasks_ enq_state.1))
    ∧ stop_ s' = stop_ enq_state.1
    ∧ length (workers_ s') = length (workers_ enq_state.1).
Proof.
  assert (H1 : owner enq_state.1
    = MEnqLock "Message 1" ["Message 2"; "Message 3"; "Message 4"; "Message 5"])
    by reflexivity.
  split; [exact H1|].
  eexists _, _.
  assert (H2 : @run main_cfg (Enqueue 0) enq_state.1 enq_state.2 = Some _)
    by (vm_compute; reflexivity).
  destruct (@Enqueue_frame main_cfg enq_state.1 enq_state.2 _ _ 0 _ _ H1 H2)
    as (Hl & _ & Hs & Hw & _).
  split_and!; [exact H2 | exact Hl | exact Hs | exact Hw].
Defined.

(** [main] interrupted after 30 characters: one whole line and the first
    ten characters of the line of worker 0. *)
Lemma output_not_interleaved_witness :
  @run main_cfg mid_sched init no_history = Some mid_state
  ∧ workers_ mid_state.1 !! 0 = Some (WWrite "Message 2" 10)
  ∧ cout mid_state.1
    = @render main_cfg (executed mid_state.2) ++ @pending main_cfg mid_state.1
  ∧ @pending main_cfg mid_state.1 = take 10 (@wline main_cfg (0, "Message 2"%string))
  ∧ queue_mutex_ mid_state.1 ≠ Some (Worker 0).
Proof.
  assert (H1 : @run main_cfg mid_sched init no_history = Some mid_state)
    by (vm_compute; reflexivity).
  assert (H2 : workers_ mid_state.1 !! 0 = Some (WWrite "Message 2" 10))
    by reflexivity.
  destruct (@output_not_interleaved main_cfg mid_sched mid_state.1 mid_state.2 H1)
    as (Hc & _ & _ & Hw & _).
  destruct (Hw 0 _ _ H2) as (_ & Hq & Hp).
  split_and!; [exact H1 | exact H2 | exact Hc | exact Hp | exact Hq].
Defined.

(** The output of [main]: five whole lines, one for each execution. *)
Lemma output_format_witness :
  @run main_cfg main_sched init no_history = Some main_final
  ∧ owner main_final.1 = MDone
  ∧ @pending main_cfg main_final.1 = []
  ∧ text (cout main_final.1)
    = (executed main_final.2 ≫= λ e,
         list_ascii_of_string (@worker_identifier main_cfg e.1 +:+ ": " +:+ e.2)
           ++ [newline])
      ++ text (@pending main_cfg main_final.1)
  ∧ (∀ i, by_worker i (executed main_final.2)
          = by_worker i (popped main_final.2))
  ∧ whole_lines (text (cout main_final.1))
    = ((λ e, list_ascii_of_string
               (@worker_identifier main_cfg e.1 +:+ ": " +:+ e.2))
         <$> executed main_final.2)
      ++ whole_lines (text (@pending main_cfg main_final.1)).
Proof.
  assert (H1 : @run main_cfg main_sched init no_history = Some main_final)
    by (vm_compute; reflexivity).
  assert (H2 : owner main_final.1 = MDone) by reflexivity.
  assert (H3 : ∀ i, i < @num_workers main_cfg → one_line (@show_id main_cfg i)).
  { intros [|[|i]] Hi; [unfold one_line; compute_done..|].
    simpl in Hi. lia. }
  assert (H4 : Forall one_line (@msgs main_cfg)).
  { repeat constructor; unfold one_line; compute_done. }
  destruct (@output_format main_cfg main_sched main_final.1 main_final.2 H1)
    as (Ht & _ & _ & Hd & Hl).
  destruct (Hd H2) as (Hp & Hw & _).
  split_and!; [exact H1 | exact H2 | exact Hp | exact Ht | exact Hw
              | exact (Hl H3 H4)].
Defined.

(** One task whose payload has an end of line in it: one execution, two
    lines on the stream, the second not of the form identifier, colon,
    space, payload. *)
Lemma output_format_counterexample :
  @run newline_cfg newline_sched init no_history = Some newline_final
  ∧ owner newline_final.1 = MDone
  ∧ executed newline_final.2 = [(0, two_line_payload)]
  ∧ whole_lines (text (cout newline_final.1))
    = [list_ascii_of_string "Thread 0: a"; list_ascii_of_string "b"]
  ∧ length (whole_lines (text (cout newline_final.1)))
    ≠ length (executed newline_final.2).
Proof.
  split_and!; [vm_compute; reflexivity | reflexivity | reflexivity
              | vm_compute; reflexivity | vm_compute; discriminate].
Qed.

(** Three workers and no message. *)
Lemma zero_tasks_witness :
  @msgs idle_cfg = []
  ∧ @run idle_cfg idle_sched init no_history = Some idle_final
  ∧ owner idle_final.1 = MDone
  ∧ executed idle_final.2 = [] ∧ cout idle_final.1 = []
  ∧ length idle_sched ≤ 6 + 12 * 3 + 6 * @spurious_count idle_sched.
Proof.
  assert (H1 : @msgs idle_cfg = []) by reflexivity.
  assert (H2 : @run idle_cfg idle_sched init no_history = Some idle_final)
    by (vm_compute; reflexivity).
  destruct (@zero_tasks idle_cfg idle_sched idle_final.1 idle_final.2 H1 H2)
    as (He & Hc & _ & Hl & _).
  split_and!; [exact H1 | exact H2 | reflexivity | exact He | exact Hc | exact Hl].
Defined.

(** No worker and five messages. *)
Lemma zero_workers_witness :
  @num_workers unmanned_cfg = 0
  ∧ ∃ s h, @run unmanned_cfg (replicate 26 (LOwner 0)) init no_history
           = Some (s, h)
    ∧ owner s = MDone ∧ workers_ s = [] ∧ tasks_ s = five_messages
    ∧ executed h = [] ∧ cout s = [].
Proof.
  assert (H1 : @num_workers unmanned_cfg = 0) by reflexivity.
  split; [exact H1|].
  destruct (@zero_workers unmanned_cfg H1)
    as (_ & s & h & Hrun & Ho & Hw & _ & Hq & He & Hc).
  exists s, h. split_and!; [exact Hrun | exact Ho | exact Hw | exact Hq
                           | exact He | exact Hc].
Defined.

(** * The program of [main] *)

(** X16. What [main] prints (lines 77-90).  The loop of lines 84-86 submits
    ["Message 1"] to ["Message 5"].  However the threads interleave and
    however the platform prints a thread id, when the pool has been
    destroyed the output is the banner followed by five whole lines, one
    for each message, each by one of the two workers, in some order; the
    queue is empty and both workers have returned. *)
Theorem main_prints sid sched s h :
  @run (main_program sid) sched init no_history = Some (s, h) →
  owner s = MDone →
  @msgs (main_program sid) = five_messages
  ∧ ∃ es : list (nat * string),
      es.*2 ≡ₚ five_messages
      ∧ length es = 5
      ∧ Forall (λ e, e.1 < 2) es
      ∧ main_output s
        = banner ++ (es ≫= λ e,
            list_ascii_of_string ("Thread " +:+ sid e.1 +:+ ": " +:+ e.2)
              ++ [newline])
      ∧ tasks_ s = []
      ∧ workers_ s = [WDone; WDone].
Proof.
  intros Hrun Hd.
  destruct (@reachable_Inv (main_program sid) _ _ _ Hrun) as [HI HH].
  destruct (@returned (main_program sid) s h HI HH Hd)
    as (Hlen & Hall & _ & _ & _ & Hpu & Hperm & Hco & Hq).
  assert (@msgs (main_program sid) = five_messages) as Hm by reflexivity.
  split; [done|]. exists (executed h).
  assert ((executed h).*2 ≡ₚ five_messages) as Hex.
  { rewrite <- Hperm, <- Hm, <- Hpu.
    rewrite <- (@hinv_fifo (main_program sid) _ _ HH), Hq by (simpl; lia).
    by rewrite app_nil_r. }
  split_and!.
  - done.
  - by rewrite <- (length_fmap snd), Hex.
  - apply (@hinv_ids (main_program sid) _ _ HH).
  - unfold main_output. f_equal. rewrite Hco.
    rewrite (@text_render (main_program sid)).
    apply list_bind_ext; [|done]. intros e.
    apply (@line_format (main_program sid)).
  - apply Hq. simpl. lia.
  - simpl in Hlen. destruct (workers_ s) as [|a [|b [|c ws]]]; try done.
    by rewrite (Hall 0 a eq_refl), (Hall 1 b eq_refl).
Qed.

(** * The further properties, run *)

(** Worker 0 of [main] inside its critical section. *)
Lemma queue_mutex_exclusive_witness :
  @run main_cfg pred_sched init no_history = Some pred_state
  ∧ queue_mutex_ pred_state.1 = Some (Worker 0)
  ∧ in_section pred_state.1 (Worker 0)
  ∧ ¬ in_section pred_state.1 Owner.
Proof.
  assert (H1 : @run main_cfg pred_sched init no_history = Some pred_state)
    by (vm_compute; reflexivity).
  assert (H2 : queue_mutex_ pred_state.1 = Some (Worker 0)) by reflexivity.
  destruct (@queue_mutex_exclusive main_cfg pred_sched
              pred_state.1 pred_state.2 H1) as [Hiff Hex].
  split_and!; [exact H1 | exact H2 | exact (proj2 (Hiff _) H2) |].
  intros Ho. discriminate (Hex _ _ Ho (proj2 (Hiff _) H2)).
Defined.

(** Worker 0 of [main] removing ["Message 1"] from the queue. *)
Lemma shared_state_guarded_witness :
  @run main_cfg pop_sched init no_history = Some pop_state
  ∧ tasks_ pop_state.1 = ["Message 1"%string]
  ∧ ∃ s', @step main_cfg (LWorker 0) pop_state.1 = Some s'
          ∧ tasks_ s' = []
          ∧ queue_mutex_ pop_state.1 = Some (Worker 0)
          ∧ queue_mutex_ s' = Some (Worker 0).
Proof.
  assert (H1 : @run main_cfg pop_sched init no_history = Some pop_state)
    by (vm_compute; reflexivity).
  split_and!; [exact H1 | reflexivity |]. eexists.
  assert (H2 : @step main_cfg (LWorker 0) pop_state.1 = Some _)
    by (vm_compute; reflexivity).
  destruct (@shared_state_guarded main_cfg pop_sched pop_state.1 pop_state.2
              (LWorker 0) _ H1 H2) as (_ & Hg & _).
  destruct Hg as [Hm Hm']; [left; vm_compute; discriminate|].
  split_and!; [exact H2 | reflexivity | exact Hm | exact Hm'].
Defined.

(** [main] with the owner running ahead: after [stop_] is set nothing is
    pushed and the queue shrinks. *)
Lemma stop_is_final_witness :
  @run main_cfg rush_sched1 init no_history = Some rush_stop
  ∧ @run main_cfg rush_sched2 rush_stop.1 rush_stop.2 = Some rush_final
  ∧ stop_ rush_stop.1 = true
  ∧ stop_ rush_final.1 = true
  ∧ pushed rush_final.2 = pushed rush_stop.2
  ∧ tasks_ rush_final.1 `suffix_of` tasks_ rush_stop.1.
Proof.
  assert (H1 : @run main_cfg rush_sched1 init no_history = Some rush_stop)
    by (vm_compute; reflexivity).
  assert (H2 : @run main_cfg rush_sched2 rush_stop.1 rush_stop.2
               = Some rush_final) by (vm_compute; reflexivity).
  assert (H3 : stop_ rush_stop.1 = true) by reflexivity.
  destruct (@stop_is_final main_cfg rush_sched1 rush_sched2
              rush_stop.1 rush_stop.2 rush_final.1 rush_final.2 H1 H2 H3)
    as (Hs & Hp & Hq).
  split_and!; [exact H1 | exact H2 | exact H3 | exact Hs | exact Hp | exact Hq].
Defined.

(** Worker 0 of [main] at line 58 with ["Message 1"] in the queue. *)
Lemma front_and_pop_defined_witness :
  @run main_cfg front_sched init no_history = Some front_state
  ∧ workers_ front_state.1 !! 0 = Some WFront
  ∧ ∃ t q s', tasks_ front_state.1 = t :: q
              ∧ @step main_cfg (LWorker 0) front_state.1 = Some s'
              ∧ workers_ s' !! 0 = Some (WPop t).
Proof.
  assert (H1 : @run main_cfg front_sched init no_history = Some front_state)
    by (vm_compute; reflexivity).
  assert (H2 : workers_ front_state.1 !! 0 = Some WFront) by reflexivity.
  destruct (@front_and_pop_defined main_cfg front_sched
              front_state.1 front_state.2 0 H1) as [Hf _].
  split_and!; [exact H1 | exact H2 | exact (Hf H2)].
Defined.

(** [main] with ["Message 1"] in the queue: worker 0 is awake. *)
Lemma no_missed_wakeup_witness :
  0 < @num_workers main_cfg
  ∧ @run main_cfg pred_sched init no_history = Some pred_state
  ∧ tasks_ pred_state.1 ≠ []
  ∧ served pred_state.1.
Proof.
  assert (H1 : 0 < @num_workers main_cfg) by (simpl; lia).
  assert (H2 : @run main_cfg pred_sched init no_history = Some pred_state)
    by (vm_compute; reflexivity).
  assert (H3 : tasks_ pred_state.1 ≠ []) by (vm_compute; discriminate).
  destruct (@no_missed_wakeup main_cfg pred_sched
              pred_state.1 pred_state.2 H1 H2) as (Hs & _).
  split_and!; [exact H1 | exact H2 | exact H3 | exact (Hs H3)].
Defined.

(** Worker 0 of [main] blocked before the first call of [Enqueue]. *)
Lemma spurious_wakeup_harmless_witness :
  workers_ wait_state.1 !! 0 = Some WWait
  ∧ queue_mutex_ wait_state.1 = None
  ∧ @run main_cfg [LSpurious 0; LWorker 0; LWorker 0]
         wait_state.1 wait_state.2
    = Some (wait_state.1, wait_state.2).
Proof.
  assert (H1 : workers_ wait_state.1 !! 0 = Some WWait) by reflexivity.
  assert (H2 : queue_mutex_ wait_state.1 = None) by reflexivity.
  destruct (@spurious_wakeup_harmless main_cfg
              wait_state.1 wait_state.2 0 H1 H2) as [Hb _].
  split_and!; [exact H1 | exact H2 | exact (Hb eq_refl eq_refl)].
Defined.

(** Worker 0 of [main] at the predicate, holding [queue_mutex_]. *)
Lemma critical_section_bounded_witness :
  @run main_cfg pred_sched init no_history = Some pred_state
  ∧ queue_mutex_ pred_state.1 = Some (Worker 0)
  ∧ ∃ m s' h', 0 < m ≤ 5
               ∧ @run main_cfg (replicate m (LWorker 0))
                      pred_state.1 pred_state.2 = Some (s', h')
               ∧ queue_mutex_ s' = None.
Proof.
  assert (H1 : @run main_cfg pred_sched init no_history = Some pred_state)
    by (vm_compute; reflexivity).
  assert (H2 : queue_mutex_ pred_state.1 = Some (Worker 0)) by reflexivity.
  destruct (@critical_section_bounded main_cfg pred_sched
              pred_state.1 pred_state.2 H1) as [Hw _].
  split_and!; [exact H1 | exact H2 | exact (Hw 0 H2)].
Defined.

(** Worker 0 of [main] about to print ["Message 1"]. *)
Lemma output_statement_completes_witness :
  workers_ print_state.1 !! 0 = Some (WCoutLock "Message 1")
  ∧ cout_mutex print_state.1 = None
  ∧ ∃ s', @run main_cfg
               (replicate (3 + length (@line main_cfg 0 "Message 1"))
                          (LWorker 0))
               print_state.1 print_state.2
          = Some (s', mkHistory (pushed print_state.2) (popped print_state.2)
                                (executed print_state.2
                                   ++ [(0, "Message 1"%string)]))
          ∧ cout s'
            = cout print_state.1 ++ @wline main_cfg (0, "Message 1"%string).
Proof.
  assert (H1 : workers_ print_state.1 !! 0 = Some (WCoutLock "Message 1"))
    by reflexivity.
  assert (H2 : cout_mutex print_state.1 = None) by reflexivity.
  destruct (@output_statement_completes main_cfg
              print_state.1 print_state.2 0 "Message 1" H1 H2) as [_ Hr].
  split_and!; [exact H1 | exact H2 |].
  eexists. split; [exact Hr | reflexivity].
Defined.

(** The first call of [Enqueue] in [main], both workers blocked. *)
Lemma Enqueue_wakes_one_witness :
  owner enq_state.1
  = MEnqLock "Message 1" ["Message 2"; "Message 3"; "Message 4"; "Message 5"]
  ∧ waiters (workers_ enq_state.1) = 2
  ∧ ∃ s' h', @run main_cfg (Enqueue 0) enq_state.1 enq_state.2
             = Some (s', h')
             ∧ waiters (workers_ s') = pred (waiters (workers_ enq_state.1)).
Proof.
  assert (H1 : owner enq_state.1
    = MEnqLock "Message 1" ["Message 2"; "Message 3"; "Message 4"; "Message 5"])
    by reflexivity.
  split_and!; [exact H1 | reflexivity |].
  eexists _, _.
  assert (H2 : @run main_cfg (Enqueue 0) enq_state.1 enq_state.2 = Some _)
    by (vm_compute; reflexivity).
  destruct (@Enqueue_wakes_one main_cfg enq_state.1 enq_state.2 _ _ 0 _ _
              H1 H2) as (Hw & _).
  split; [exact H2 | exact Hw].
Defined.

(** Three workers, two of them blocked, at the destructor. *)
Lemma destructor_signals_witness :
  owner dtor_state.1 = MDtorLock
  ∧ queue_mutex_ dtor_state.1 = None
  ∧ workers_ dtor_state.1 = [WWait; WWait; WLock]
  ∧ @run idle_cfg (replicate 4 (LOwner 0)) dtor_state.1 dtor_state.2
    = Some (mkWorld (wake <$> workers_ dtor_state.1) (tasks_ dtor_state.1)
                    None true (cout_mutex dtor_state.1) (cout dtor_state.1)
                    (MJoin 0), dtor_state.2).
Proof.
  assert (H1 : owner dtor_state.1 = MDtorLock) by reflexivity.
  assert (H2 : queue_mutex_ dtor_state.1 = None) by reflexivity.
  destruct (@destructor_signals idle_cfg dtor_state.1 dtor_state.2 H1 H2)
    as [Hr _].
  split_and!; [exact H1 | exact H2 | reflexivity | exact Hr].
Defined.

(** Three workers, all returned, at the first join. *)
Lemma destructor_joins_witness :
  owner join_state.1 = MJoin 0
  ∧ workers_ join_state.1 = [WDone; WDone; WDone]
  ∧ @run idle_cfg (replicate (S (length (workers_ join_state.1))) (LOwner 0))
         join_state.1 join_state.2
    = Some (set_owner MDone join_state.1, join_state.2).
Proof.
  assert (H1 : owner join_state.1 = MJoin 0) by reflexivity.
  assert (H2 : ∀ j pc, workers_ join_state.1 !! j = Some pc → pc = WDone).
  { intros [|[|[|j]]] pc H; vm_compute in H; congruence. }
  destruct (@destructor_joins idle_cfg join_state.1 join_state.2 H1 H2)
    as [Hr _].
  split_and!; [exact H1 | reflexivity | exact Hr].
Defined.

(** The join of a returned worker. *)
Lemma threads_persist_witness :
  workers_ join_state.1 !! 1 = Some WDone
  ∧ ∃ s', @step idle_cfg (LOwner 0) join_state.1 = Some s'
          ∧ workers_ s' !! 1 = Some WDone.
Proof.
  split; [reflexivity|]. eexists.
  assert (H1 : @step idle_cfg (LOwner 0) join_state.1 = Some _)
    by (vm_compute; reflexivity).
  destruct (@threads_persist idle_cfg (LOwner 0) join_state.1 _ H1)
    as [_ Hd].
  split; [exact H1 | exact (proj1 (Hd 1 eq_refl))].
Defined.

(** [main] interrupted while worker 0 prints ["Message 2"]. *)
Lemma per_worker_order_witness :
  @run main_cfg mid_sched init no_history = Some mid_state
  ∧ flight mid_state.1 0 = [(0, "Message 2"%string)]
  ∧ by_worker 0 (popped mid_state.2)
    = by_worker 0 (executed mid_state.2) ++ flight mid_state.1 0.
Proof.
  assert (H1 : @run main_cfg mid_sched init no_history = Some mid_state)
    by (vm_compute; reflexivity).
  destruct (@per_worker_order main_cfg mid_sched mid_state.1 mid_state.2 0 H1)
    as (Ho & _).
  split_and!; [exact H1 | reflexivity | exact Ho].
Defined.

(** [main] inside the constructor, one thread started and blocked. *)
Lemma constructor_spawns_witness :
  @run main_cfg ctor_sched init no_history = Some ctor_state
  ∧ owner ctor_state.1 = MCtor 1
  ∧ workers_ ctor_state.1 = [WWait]
  ∧ length (workers_ ctor_state.1) = @spawned main_cfg (owner ctor_state.1)
  ∧ tasks_ ctor_state.1 = [].
Proof.
  assert (H1 : @run main_cfg ctor_sched init no_history = Some ctor_state)
    by (vm_compute; reflexivity).
  assert (H2 : owner ctor_state.1 = MCtor 1) by reflexivity.
  destruct (@constructor_spawns main_cfg ctor_sched
              ctor_state.1 ctor_state.2 H1) as (_ & Hl & _ & Hc).
  destruct (Hc 1 H2) as (Hq & _).
  split_and!; [exact H1 | exact H2 | reflexivity | exact Hl | exact Hq].
Defined.

(** [main] interrupted: one line complete, two tasks held, two queued. *)
Lemma tasks_conserved_witness :
  @run main_cfg mid_sched init no_history = Some mid_state
  ∧ length (executed mid_state.2) = 1
  ∧ workers_ mid_state.1 ≫= in_flight = ["Message 2"; "Message 3"]%string
  ∧ pushed mid_state.2
    ≡ₚ (executed mid_state.2).*2 ++ (workers_ mid_state.1 ≫= in_flight)
       ++ tasks_ mid_state.1.
Proof.
  assert (H1 : @run main_cfg mid_sched init no_history = Some mid_state)
    by (vm_compute; reflexivity).
  destruct (@tasks_conserved main_cfg mid_sched mid_state.1 mid_state.2 H1)
    as (Hp & _).
  split_and!; [exact H1 | reflexivity | reflexivity | exact Hp].
Defined.

(** [main] with the thread ids printed in decimal. *)
Lemma main_prints_witness :
  @run (main_program decimal_id) main_sched init no_history = Some main_final
  ∧ owner main_final.1 = MDone
  ∧ ∃ es : list (nat * string),
      es.*2 ≡ₚ five_messages
      ∧ main_output main_final.1
        = banner ++ (es ≫= λ e,
            list_ascii_of_string
              ("Thread " +:+ decimal_id e.1 +:+ ": " +:+ e.2) ++ [newline]).
Proof.
  assert (H1 : @run (main_program decimal_id) main_sched init no_history
               = Some main_final) by (vm_compute; reflexivity).
  assert (H2 : owner main_final.1 = MDone) by reflexivity.
  destruct (@main_prints decimal_id main_sched main_final.1 main_final.2
              H1 H2) as (_ & es & Hp & _ & _ & Ho & _).
  split_and!; [exact H1 | exact H2 |].
  exists es. split; [exact Hp | exact Ho].
Defined.
